(** * textlint-plugin-rustdoc: the comment classifier and the tree builder

    A shallow embedding of [src/comment.ts]: the classification of comment
    tokens ([getRustdocType]), the stripping of their markers
    ([extractContent], [processBlockContent]), the grouping of row-adjacent
    tokens ([groupConsecutiveNodes]) and the construction of the textlint
    tree ([createStrNode], [createParagraphNode], [convertToTextlintAst]).

    JavaScript strings are sequences of UTF-16 code units; a code unit is a
    natural number here and a string a list of them, so that [length],
    [slice] and the regular-expression class [\s] mean what they mean in
    the source.  JavaScript numbers that hold offsets, rows and columns are
    integers ([Z]). *)

From Stdlib Require Import ZArith NArith Lia Ascii String.
From stdpp Require Import base decidable option list sorting gmap.

Local Open Scope Z_scope.

(** ** Strings *)

Definition char := N.
Definition jsstring := list char.

(** A string literal of the source, as code units (ASCII only). *)
Definition js (s : string) : jsstring :=
  N_of_ascii <$> list_ascii_of_string s.

Definition LF : char := 10%N.
Definition STAR : char := 42%N.

(** The class [\s] of ECMAScript regular expressions, which is also the
    set of characters that [String.prototype.trim] removes: WhiteSpace
    and LineTerminator. *)
Definition isWhiteSpace (c : char) : bool :=
  ((9 <=? c) && (c <=? 13) (* TAB LF VT FF CR *)
   || (c =? 32) || (c =? 160) || (c =? 5760)
   || (8192 <=? c) && (c <=? 8202)
   || (c =? 8232) || (c =? 8233) || (c =? 8239) || (c =? 8287)
   || (c =? 12288) || (c =? 65279))%N.

(** [text.startsWith(prefix)] *)
Fixpoint startsWith (text prefix : jsstring) {struct prefix} : bool :=
  match prefix, text with
  | [], _ => true
  | p :: prefix', c :: text' => (c =? p)%N && startsWith text' prefix'
  | _ :: _, [] => false
  end.

(** [text.slice(start)] for [0 <= start], and [text.slice(start, -back)]. *)
Definition slice_from (start : nat) (text : jsstring) : jsstring :=
  drop start text.

Definition slice (start back : nat) (text : jsstring) : jsstring :=
  let from := Nat.min start (length text) in
  let to := (length text - back)%nat in
  take (to - from) (drop from text).

(** [content.split("\n")]: never empty, the last piece is what follows the
    last separator. *)
Fixpoint split (sep : char) (s : jsstring) : list jsstring :=
  match s with
  | [] => [[]]
  | c :: s' =>
      if (c =? sep)%N then [] :: split sep s'
      else match split sep s' with
           | l :: ls => (c :: l) :: ls
           | [] => [[c]]
           end
  end.

(** [lines.join(sep)] *)
Fixpoint join (sep : jsstring) (ls : list jsstring) : jsstring :=
  match ls with
  | [] => []
  | [l] => l
  | l :: ls' => l ++ sep ++ join sep ls'
  end.

Fixpoint trimStart (s : jsstring) : jsstring :=
  match s with
  | c :: s' => if isWhiteSpace c then trimStart s' else s
  | [] => []
  end.

Definition trimEnd (s : jsstring) : jsstring := reverse (trimStart (reverse s)).

(** [s.trim()] *)
Definition trim (s : jsstring) : jsstring := trimEnd (trimStart s).

(** ** The regular expressions of the source

    The three patterns of [comment.ts] are anchored sequences of single
    characters and of the class [\s], each taken once, optionally ([?]) or
    any number of times ([*]).  [exec] is the backtracking matcher at
    position 0 (the patterns start with [^] and have no flags): greedy
    quantifiers, the longer alternative tried first. *)
Module RegExp.

Inductive atom := Lit (c : char) | Space.

Inductive piece := One (a : atom) | Opt (a : atom) | Many (a : atom).

Definition t := list piece.

Definition accepts (a : atom) (c : char) : bool :=
  match a with
  | Lit d => (c =? d)%N
  | Space => isWhiteSpace c
  end.

(** The length of the match at the start of [s], if there is one. *)
Fixpoint exec (r : t) (s : jsstring) : option nat :=
  match r with
  | [] => Some 0%nat
  | One a :: r' =>
      match s with
      | c :: s' => if accepts a c then S <$> exec r' s' else None
      | [] => None
      end
  | Opt a :: r' =>
      match s with
      | c :: s' =>
          if accepts a c then
            match exec r' s' with
            | Some n => Some (S n)
            | None => exec r' s
            end
          else exec r' s
      | [] => exec r' s
      end
  | Many a :: r' =>
      (fix many (s : jsstring) : option nat :=
         match s with
         | c :: s' =>
             if accepts a c then
               match many s' with
               | Some n => Some (S n)
               | None => exec r' s
               end
             else exec r' s
         | [] => exec r' s
         end) s
  end.

(** [s.replace(r, empty)] for an anchored, non-global pattern: the match,
    if there is one, is deleted. *)
Definition remove (r : t) (s : jsstring) : jsstring :=
  match exec r s with
  | Some n => drop n s
  | None => s
  end.

Definition SLASH : char := 47%N.
Definition BANG : char := 33%N.

(** [/^\/\/\/\s?/] *)
Definition outer_line_prefix : t :=
  [One (Lit SLASH); One (Lit SLASH); One (Lit SLASH); Opt Space].

(** [/^\/\/!\s?/] *)
Definition inner_line_prefix : t :=
  [One (Lit SLASH); One (Lit SLASH); One (Lit BANG); Opt Space].

(** [/^\s*\*\s?/] *)
Definition block_line_prefix : t :=
  [Many Space; One (Lit STAR); Opt Space].

End RegExp.

(** ** The classifier *)

Inductive RustdocType := outer_line | inner_line | outer_block | inner_block.

#[global] Instance RustdocType_eq_dec : EqDecision RustdocType.
Proof. solve_decision. Defined.

Definition getRustdocType (text : jsstring) : option RustdocType :=
  if startsWith text (js "///") then Some outer_line
  else if startsWith text (js "//!") then Some inner_line
  else if startsWith text (js "/**") && negb (startsWith text (js "/***"))
  then Some outer_block
  else if startsWith text (js "/*!") then Some inner_block
  else None.

(** Each line loses its leading [ * ] pattern; the whole is trimmed. *)
Definition processBlockContent (content : jsstring) : jsstring :=
  let lines := split LF content in
  trim (join [LF] (RegExp.remove RegExp.block_line_prefix <$> lines)).

Record Extracted := { content : jsstring; prefixLength : nat }.

Definition extractContent (text : jsstring) (docType : RustdocType) : Extracted :=
  match docType with
  | outer_line =>
      let match_ := RegExp.exec RegExp.outer_line_prefix text in
      let prefixLength := match match_ with Some n => n | None => 3%nat end in
      {| content := slice_from prefixLength text; prefixLength := prefixLength |}
  | inner_line =>
      let match_ := RegExp.exec RegExp.inner_line_prefix text in
      let prefixLength := match match_ with Some n => n | None => 3%nat end in
      {| content := slice_from prefixLength text; prefixLength := prefixLength |}
  | outer_block =>
      let inner := slice 3 2 text in
      {| content := processBlockContent inner; prefixLength := 3 |}
  | inner_block =>
      let inner := slice 3 2 text in
      {| content := processBlockContent inner; prefixLength := 3 |}
  end.

(** ** Tokens of the tokenizer (tree-sitter's [SyntaxNode]) *)

Module Point.
Record t := mk { row : Z; column : Z }.
End Point.

Module SyntaxNode.
Record t := mk {
  text : jsstring;
  startIndex : Z;
  endIndex : Z;
  startPosition : Point.t;
  endPosition : Point.t;
}.
End SyntaxNode.

(** ** Nodes of the textlint tree *)

Inductive ASTNodeTypes := Document | Paragraph | Str.

Module Position.
Record t := mk { line : Z; column : Z }.
End Position.

Module Location.
Record t := mk { start : Position.t; end_ : Position.t }.
End Location.

Module TxtStrNode.
Record t := mk {
  type : ASTNodeTypes;
  raw : jsstring;
  value : jsstring;
  range : Z * Z;
  loc : Location.t;
}.
End TxtStrNode.

Module TxtParagraphNode.
Record t := mk {
  type : ASTNodeTypes;
  raw : jsstring;
  range : Z * Z;
  loc : Location.t;
  children : list TxtStrNode.t;
}.
End TxtParagraphNode.

Module TxtDocumentNode.
Record t := mk {
  type : ASTNodeTypes;
  raw : jsstring;
  range : Z * Z;
  loc : Location.t;
  children : list TxtParagraphNode.t;
}.
End TxtDocumentNode.

(** ** The tree builder *)

Definition createStrNode (node : SyntaxNode.t) (docType : RustdocType)
  : TxtStrNode.t :=
  let e := extractContent (SyntaxNode.text node) docType in
  let startColumn :=
    Point.column (SyntaxNode.startPosition node) + Z.of_nat (prefixLength e) in
  let startIndex := SyntaxNode.startIndex node + Z.of_nat (prefixLength e) in
  {| TxtStrNode.type := Str;
     TxtStrNode.raw := content e;
     TxtStrNode.value := content e;
     TxtStrNode.range := (startIndex, SyntaxNode.endIndex node);
     TxtStrNode.loc :=
       {| Location.start :=
            {| Position.line := Point.row (SyntaxNode.startPosition node) + 1;
               Position.column := startColumn |};
          Location.end_ :=
            {| Position.line := Point.row (SyntaxNode.endPosition node) + 1;
               Position.column := Point.column (SyntaxNode.endPosition node) |}
       |} |}.

(** The body of the [for (const node of nodes)] loop of
    [createParagraphNode]: [continue] on a token that is no documentation
    comment, [children.push] otherwise. *)
Definition pushStrNode (children : list TxtStrNode.t) (node : SyntaxNode.t)
  : list TxtStrNode.t :=
  match getRustdocType (SyntaxNode.text node) with
  | None => children
  | Some docType => children ++ [createStrNode node docType]
  end.

(** [null] is [None]; [children.at(0)] is [head] and [children.at(-1)] is
    [last], [undefined] on the empty array. *)
Definition createParagraphNode (nodes : list SyntaxNode.t)
  : option TxtParagraphNode.t :=
  if decide (length nodes = 0%nat) then None else
  let children := foldl pushStrNode [] nodes in
  if decide (length children = 0%nat) then None else
  match head children, last children with
  | Some firstChild, Some lastChild =>
      Some {| TxtParagraphNode.type := Paragraph;
              TxtParagraphNode.raw := join [LF] (SyntaxNode.text <$> nodes);
              TxtParagraphNode.range :=
                ((TxtStrNode.range firstChild).1, (TxtStrNode.range lastChild).2);
              TxtParagraphNode.loc :=
                {| Location.start := Location.start (TxtStrNode.loc firstChild);
                   Location.end_ := Location.end_ (TxtStrNode.loc lastChild) |};
              TxtParagraphNode.children := children |}
  | _, _ => None
  end.

(** The body of the [for (let i = 1; ...)] loop of [groupConsecutiveNodes]
    on the state [(groups, currentGroup)]. *)
Definition groupStep (nodes : list SyntaxNode.t)
    (st : list (list SyntaxNode.t) * list SyntaxNode.t) (i : nat)
  : list (list SyntaxNode.t) * list SyntaxNode.t :=
  let '(groups, currentGroup) := st in
  match nodes !! (i - 1)%nat, nodes !! i with
  | Some prevNode, Some currentNode =>
      let isConsecutive :=
        Point.row (SyntaxNode.startPosition currentNode)
        =? Point.row (SyntaxNode.startPosition prevNode) + 1 in
      if isConsecutive then (groups, currentGroup ++ [currentNode])
      else (groups ++ [currentGroup], [currentNode])
  | _, _ => st
  end.

Definition groupConsecutiveNodes (nodes : list SyntaxNode.t)
  : list (list SyntaxNode.t) :=
  match nodes with
  | [] => []
  | firstNode :: _ =>
      let '(groups, currentGroup) :=
        foldl (groupStep nodes) ([], [firstNode]) (seq 1 (length nodes - 1)) in
      groups ++ [currentGroup]
  end.

Definition isRustdoc (node : SyntaxNode.t) : Prop :=
  getRustdocType (SyntaxNode.text node) ≠ None.

#[global] Instance isRustdoc_dec node : Decision (isRustdoc node).
Proof. unfold isRustdoc. apply _. Defined.

(** The body of the [for (const group of groups)] loop of
    [convertToTextlintAst]. *)
Definition pushParagraph (children : list TxtParagraphNode.t)
    (group : list SyntaxNode.t) : list TxtParagraphNode.t :=
  match createParagraphNode group with
  | Some paragraph => children ++ [paragraph]
  | None => children
  end.

Definition convertToTextlintAst (docNodes : list SyntaxNode.t)
    (rawText : jsstring) : TxtDocumentNode.t :=
  let rustdocNodes := filter isRustdoc docNodes in
  let groups := groupConsecutiveNodes rustdocNodes in
  let children := foldl pushParagraph [] groups in
  match head children, last children with
  | Some firstChild, Some lastChild =>
      {| TxtDocumentNode.type := Document;
         TxtDocumentNode.raw := rawText;
         TxtDocumentNode.range :=
           ((TxtParagraphNode.range firstChild).1,
            (TxtParagraphNode.range lastChild).2);
         TxtDocumentNode.loc :=
           {| Location.start :=
                Location.start (TxtParagraphNode.loc firstChild);
              Location.end_ :=
                Location.end_ (TxtParagraphNode.loc lastChild) |};
         TxtDocumentNode.children := children |}
  | _, _ =>
      {| TxtDocumentNode.type := Document;
         TxtDocumentNode.raw := rawText;
         TxtDocumentNode.range := (0, Z.of_nat (length rawText));
         TxtDocumentNode.loc :=
           {| Location.start := {| Position.line := 1; Position.column := 0 |};
              Location.end_ := {| Position.line := 1; Position.column := 0 |} |};
         TxtDocumentNode.children := [] |}
  end.

(** [traverse]: the conversion of one token, kept by the source for
    compatibility. *)
Definition traverse (docNode : SyntaxNode.t) : option TxtStrNode.t :=
  match getRustdocType (SyntaxNode.text docNode) with
  | None => None
  | Some docType => Some (createStrNode docNode docType)
  end.

(** ** What the claims are stated with *)

(** *** The contract of the tokenizer

    A token spans its text: the end offset is the start offset plus the
    number of code units, and the end position is the start position moved
    over the text, a line feed starting the next row at column 0. *)
Definition advance (p : Point.t) (s : jsstring) : Point.t :=
  foldl (fun q c =>
           if (c =? LF)%N then Point.mk (Point.row q + 1) 0
           else Point.mk (Point.row q) (Point.column q + 1)) p s.

Definition wf_token (node : SyntaxNode.t) : Prop :=
  SyntaxNode.endIndex node
  = SyntaxNode.startIndex node + Z.of_nat (length (SyntaxNode.text node))
  ∧ SyntaxNode.endPosition node
    = advance (SyntaxNode.startPosition node) (SyntaxNode.text node).

(** *** Positions *)

(** The order of positions in a text: by line, then by column. *)
Definition Position_le (p q : Position.t) : Prop :=
  Position.line p < Position.line q
  ∨ (Position.line p = Position.line q
     ∧ Position.column p <= Position.column q).

(** The textlint position (1-indexed line, 0-indexed column) of an offset
    of a text. *)
Definition positionAt (rawText : jsstring) (offset : Z) : Position.t :=
  let p := advance (Point.mk 0 0) (take (Z.to_nat offset) rawText) in
  Position.mk (Point.row p + 1) (Point.column p).

Definition origin : Location.t :=
  {| Location.start := {| Position.line := 1; Position.column := 0 |};
     Location.end_ := {| Position.line := 1; Position.column := 0 |} |}.

(** *** Runs of row-adjacent tokens *)

Definition startRow (node : SyntaxNode.t) : Z :=
  Point.row (SyntaxNode.startPosition node).

Definition consecutive (prevNode currentNode : SyntaxNode.t) : Prop :=
  startRow currentNode = startRow prevNode + 1.

(** Every element of [l] is related to the one after it. *)
Definition adjacent {A} (R : A → A → Prop) (l : list A) : Prop :=
  ∀ i a b, l !! i = Some a → l !! S i = Some b → R a b.

(** A group ends where the next token does not continue it. *)
Definition breaks (g1 g2 : list SyntaxNode.t) : Prop :=
  ∀ a b, last g1 = Some a → head g2 = Some b → ¬ consecutive a b.

(** [groups] cuts [nodes] into its maximal runs of consecutive rows. *)
Definition maximal_runs (nodes : list SyntaxNode.t)
    (groups : list (list SyntaxNode.t)) : Prop :=
  concat groups = nodes
  ∧ Forall (λ g, g ≠ []) groups
  ∧ Forall (adjacent consecutive) groups
  ∧ adjacent breaks groups.

(** The invariant of the loop of [groupConsecutiveNodes] when the tokens
    up to index [n] have been placed. *)
Definition group_inv (nodes : list SyntaxNode.t) (n : nat)
    (st : list (list SyntaxNode.t) * list SyntaxNode.t) : Prop :=
  maximal_runs (take (S n) nodes) (st.1 ++ [st.2]) ∧ last st.2 = nodes !! n.

(** *** The markers *)

Definition marker (docType : RustdocType) : jsstring :=
  match docType with
  | outer_line => js "///"
  | inner_line => js "//!"
  | outer_block => js "/**"
  | inner_block => js "/*!"
  end.

Definition isLine (docType : RustdocType) : bool :=
  match docType with outer_line | inner_line => true | _ => false end.

Definition isBlock (docType : RustdocType) : bool := negb (isLine docType).

(** [s] without its last [n] characters. *)
Definition dropLast (n : nat) (s : jsstring) : jsstring :=
  take (length s - n) s.

(** What a line of a block comment loses: the whitespace before a [*],
    the [*] and one whitespace character after it; a line whose first
    character after the whitespace is no [*] is kept as it is. *)
Definition stripLeadingStar (line : jsstring) : jsstring :=
  match trimStart line with
  | c :: rest =>
      if (c =? STAR)%N then
        match rest with
        | d :: rest' => if isWhiteSpace d then rest' else rest
        | [] => []
        end
      else line
  | [] => line
  end.

(** [stripped] is [line] without its line marker: when the line is
    whitespace, a [*] and a rest, the whitespace, the [*] and one
    whitespace character at the head of the rest, if there is one, are
    gone; a line that is not of that shape has no marker and is kept. *)
Definition withoutLineMarker (line stripped : jsstring) : Prop :=
  (∃ ws after,
     line = ws ++ STAR :: after
     ∧ Forall (λ c, isWhiteSpace c = true) ws
     ∧ ((stripped = after ∧ ∀ c, head after = Some c → isWhiteSpace c = false)
        ∨ ∃ c, after = c :: stripped ∧ isWhiteSpace c = true))
  ∨ ((∀ ws after,
        Forall (λ c, isWhiteSpace c = true) ws → line ≠ ws ++ STAR :: after)
     ∧ stripped = line).

(** The stripping of a block comment with the [*] optional, as the
    specification words it: the pattern [^\s*\*?\s?]. *)
Definition optional_star_prefix : RegExp.t :=
  [RegExp.Many RegExp.Space; RegExp.Opt (RegExp.Lit STAR);
   RegExp.Opt RegExp.Space].

Definition extractBlock_optional_star (text : jsstring) : Extracted :=
  let body := dropLast 2 (drop 3 text) in
  {| content :=
       trim (join [LF] (RegExp.remove optional_star_prefix <$> split LF body));
     prefixLength := 3 |}.

(** The length of what [/^\/\/\/\s?/] and [/^\/\/!\s?/] match: the marker
    and one whitespace character when one follows. *)
Definition linePrefixLength (rest : jsstring) : nat :=
  match rest with
  | c :: _ => if isWhiteSpace c then 4 else 3
  | [] => 3
  end.

(** *** The shape of the tree *)

Definition spans_children (p : TxtParagraphNode.t) : Prop :=
  ∃ firstChild lastChild,
    head (TxtParagraphNode.children p) = Some firstChild
    ∧ last (TxtParagraphNode.children p) = Some lastChild
    ∧ TxtParagraphNode.range p
      = ((TxtStrNode.range firstChild).1, (TxtStrNode.range lastChild).2)
    ∧ TxtParagraphNode.loc p
      = {| Location.start := Location.start (TxtStrNode.loc firstChild);
           Location.end_ := Location.end_ (TxtStrNode.loc lastChild) |}.

Definition wf_str (c : TxtStrNode.t) : Prop :=
  TxtStrNode.type c = Str ∧ TxtStrNode.raw c = TxtStrNode.value c.

Definition wf_paragraph (p : TxtParagraphNode.t) : Prop :=
  TxtParagraphNode.type p = Paragraph
  ∧ TxtParagraphNode.children p ≠ []
  ∧ Forall wf_str (TxtParagraphNode.children p)
  ∧ spans_children p.

Definition wf_document (rawText : jsstring) (d : TxtDocumentNode.t) : Prop :=
  TxtDocumentNode.type d = Document
  ∧ TxtDocumentNode.raw d = rawText
  ∧ Forall wf_paragraph (TxtDocumentNode.children d)
  ∧ match head (TxtDocumentNode.children d),
          last (TxtDocumentNode.children d) with
    | Some firstChild, Some lastChild =>
        TxtDocumentNode.range d
        = ((TxtParagraphNode.range firstChild).1,
           (TxtParagraphNode.range lastChild).2)
        ∧ TxtDocumentNode.loc d
          = {| Location.start :=
                 Location.start (TxtParagraphNode.loc firstChild);
               Location.end_ :=
                 Location.end_ (TxtParagraphNode.loc lastChild) |}
    | _, _ =>
        TxtDocumentNode.range d = (0, Z.of_nat (length rawText))
        ∧ TxtDocumentNode.loc d = origin
    end.

(** The text nodes of a document, in order. *)
Definition strNodes (d : TxtDocumentNode.t) : list TxtStrNode.t :=
  concat (TxtParagraphNode.children <$> TxtDocumentNode.children d).

(** The paragraphs of the document that [convertToTextlintAst] builds. *)
Definition paragraphsOf (docNodes : list SyntaxNode.t)
  : list TxtParagraphNode.t :=
  omap createParagraphNode (groupConsecutiveNodes (filter isRustdoc docNodes)).

(** *** Tokens of the examples *)

(** A well-formed one-line token at the start of row [r], at offset [i]. *)
Definition lineToken (r i : Z) (s : string) : SyntaxNode.t :=
  {| SyntaxNode.text := js s;
     SyntaxNode.startIndex := i;
     SyntaxNode.endIndex := i + Z.of_nat (length (js s));
     SyntaxNode.startPosition := Point.mk r 0;
     SyntaxNode.endPosition := advance (Point.mk r 0) (js s) |}.

(** The two documentation lines of the tests, one paragraph. *)
Definition twoLines : list SyntaxNode.t :=
  [lineToken 0 0 "/// This is a rustdoc comment.";
   lineToken 1 31 "/// next line."].

(** A plain comment, and a group of a documentation line and it. *)
Definition plainToken : SyntaxNode.t := lineToken 1 8 "// plain".

Definition mixedGroup : list SyntaxNode.t :=
  [lineToken 0 0 "/// doc"; plainToken].

(** The block comment of the tests,
    [/**\n * Block doc comment.\n * Multiple lines.\n */]. *)
Definition blockText : jsstring :=
  js "/**" ++ [LF] ++ js " * Block doc comment." ++ [LF]
  ++ js " * Multiple lines." ++ [LF] ++ js " */".

(** A block comment with a line that has no [*]:
    [/**\n * a\n   b\n */]. *)
Definition starlessText : jsstring :=
  js "/**" ++ [LF] ++ js " * a" ++ [LF] ++ js "   b" ++ [LF] ++ js " */".

(** ** The processor ([RustdocProcessor.ts])

    [preProcess] parses the text and runs the query with the tokenizer,
    which is outside this development: the captures that the query
    returns are an argument here. *)

Module QueryCapture.
Record t := mk { name : jsstring; node : SyntaxNode.t }.
End QueryCapture.

(** The callback of [filter] in [preProcess], with the set [seenNodes] of
    the offsets met so far as its state: a node whose [startIndex] is in
    the set is dropped, any other is kept and its [startIndex] added. *)
Fixpoint filterSeen (seenNodes : gset Z) (nodes : list SyntaxNode.t)
  : list SyntaxNode.t :=
  match nodes with
  | [] => []
  | node :: nodes' =>
      if decide (SyntaxNode.startIndex node ∈ seenNodes)
      then filterSeen seenNodes nodes'
      else node :: filterSeen ({[SyntaxNode.startIndex node]} ∪ seenNodes) nodes'
  end.

(** [Array.prototype.sort(compare)], which is stable: an element goes
    before the first one it does not compare greater than. *)
Fixpoint insertSorted {A} (compare : A → A → Z) (x : A) (l : list A) : list A :=
  match l with
  | [] => [x]
  | y :: l' =>
      if compare x y <=? 0 then x :: l else y :: insertSorted compare x l'
  end.

Definition sort {A} (compare : A → A → Z) (l : list A) : list A :=
  foldr (insertSorted compare) [] l.

(** [(a, b) => a.startIndex - b.startIndex] *)
Definition byStartIndex (a b : SyntaxNode.t) : Z :=
  SyntaxNode.startIndex a - SyntaxNode.startIndex b.

(** The [commentNodes] of [preProcess]: the nodes of the captures, one
    per start offset, in the order of the offsets. *)
Definition commentNodes (captures : list QueryCapture.t) : list SyntaxNode.t :=
  sort byStartIndex (filterSeen ∅ (QueryCapture.node <$> captures)).

Definition preProcess (captures : list QueryCapture.t) (text : jsstring)
  : TxtDocumentNode.t :=
  convertToTextlintAst (commentNodes captures) text.

(** *** What the further properties are stated with *)

(** The tokens lie one after the other in the text. *)
Definition inTextOrder (nodes : list SyntaxNode.t) : Prop :=
  StronglySorted
    (λ a b, SyntaxNode.endIndex a <= SyntaxNode.startIndex b) nodes.

(** The start offsets grow strictly. *)
Definition increasing (nodes : list SyntaxNode.t) : Prop :=
  StronglySorted
    (λ a b, SyntaxNode.startIndex a < SyntaxNode.startIndex b) nodes.

(** A token that starts at offset [i], for the examples. *)
Definition tokenAt (i : Z) (s : string) : SyntaxNode.t := lineToken 0 i s.

(** A well-formed token at the start of row [r], at offset [i], with the
    text [text], which may hold line feeds. *)
Definition textToken (r i : Z) (text : jsstring) : SyntaxNode.t :=
  {| SyntaxNode.text := text;
     SyntaxNode.startIndex := i;
     SyntaxNode.endIndex := i + Z.of_nat (length text);
     SyntaxNode.startPosition := Point.mk r 0;
     SyntaxNode.endPosition := advance (Point.mk r 0) text |}.

(** * Properties *)

(** ** Strings *)

Lemma startsWith_spec (text prefix : jsstring) :
  startsWith text prefix = true ↔ ∃ rest, text = prefix ++ rest.
Proof.
  revert text; induction prefix as [|p prefix IH]; intros text; simpl.
  - destruct text; split; eauto.
  - destruct text as [|c text]; simpl.
    + split; [discriminate | intros [rest Hr]; discriminate].
    + rewrite andb_true_iff, N.eqb_eq, IH. split.
      * intros [-> [rest ->]]. eauto.
      * intros [rest Hr]. injection Hr as -> ->. eauto.
Qed.

Lemma startsWith_app (prefix rest : jsstring) :
  startsWith (prefix ++ rest) prefix = true.
Proof. apply startsWith_spec; eauto. Qed.

Lemma trimStart_suffix (s : jsstring) : trimStart s `suffix_of` s.
Proof.
  induction s as [|c s IH]; simpl; [done|].
  destruct (isWhiteSpace c); [by apply suffix_cons_r | done].
Qed.

Lemma suffix_sublist {A} (l1 l2 : list A) :
  l1 `suffix_of` l2 → l1 `sublist_of` l2.
Proof. intros [k ->]. by apply sublist_inserts_l. Qed.

Lemma sublist_reverse {A} (l1 l2 : list A) :
  l1 `sublist_of` l2 → reverse l1 `sublist_of` reverse l2.
Proof.
  induction 1 as [|x l1 l2 _ IH|x l1 l2 _ IH]; [done| |].
  - rewrite !reverse_cons. by apply sublist_app.
  - rewrite reverse_cons. by apply sublist_inserts_r.
Qed.

Lemma trim_sublist (s : jsstring) : trim s `sublist_of` s.
Proof.
  unfold trim, trimEnd.
  transitivity (trimStart s); [|apply suffix_sublist, trimStart_suffix].
  rewrite <- (reverse_involutive (trimStart s)) at 2.
  apply sublist_reverse, suffix_sublist, trimStart_suffix.
Qed.

Lemma split_nonempty (sep : char) (s : jsstring) : split sep s ≠ [].
Proof.
  destruct s as [|c s]; simpl; [done|].
  destruct (c =? sep)%N; [done|]. by destruct (split sep s).
Qed.

(** Joining the pieces of a split with the separator gives the string
    back. *)
Lemma join_split (sep : char) (s : jsstring) : join [sep] (split sep s) = s.
Proof.
  induction s as [|c s IH]; simpl; [done|].
  destruct (N.eqb_spec c sep) as [->|Hne].
  - pose proof (split_nonempty sep s).
    destruct (split sep s) as [|l ls] eqn:E; [done|].
    simpl in *. by rewrite IH.
  - destruct (split sep s) as [|l ls] eqn:E; [by destruct (split_nonempty sep s)|].
    rewrite <- IH. by destruct ls.
Qed.

Lemma join_sublist (sep : jsstring) (ls ls' : list jsstring) :
  Forall2 sublist ls ls' → join sep ls `sublist_of` join sep ls'.
Proof.
  induction 1 as [|l l' ls ls' Hl Hls IH]; simpl; [done|].
  destruct Hls as [|m m' ms ms' Hm Hms]; [done|].
  apply sublist_app; [done|]. apply sublist_app; [done|]. exact IH.
Qed.

Lemma dropLast_app (s closing : jsstring) :
  dropLast (length closing) (s ++ closing) = s.
Proof.
  unfold dropLast. rewrite length_app.
  replace (length s + length closing - length closing)%nat with (length s) by lia.
  by rewrite take_app_length.
Qed.

(** [text.slice(3, -2)] removes the first three and the last two
    characters. *)
Lemma slice_dropLast (start back : nat) (text : jsstring) :
  slice start back text = dropLast back (drop start text).
Proof.
  unfold slice, dropLast. rewrite length_drop.
  destruct (decide (start ≤ length text)%nat) as [Hle|Hgt].
  - rewrite Nat.min_l by done. f_equal. lia.
  - rewrite Nat.min_r by lia. rewrite !drop_ge by lia. by rewrite !take_nil.
Qed.

(** ** The regular expressions *)

(** The unfolding of [exec] on a starred class. *)
Lemma exec_many (a : RegExp.atom) (r : RegExp.t) (s : jsstring) :
  RegExp.exec (RegExp.Many a :: r) s
  = match s with
    | c :: s' =>
        if RegExp.accepts a c then
          match RegExp.exec (RegExp.Many a :: r) s' with
          | Some n => Some (S n)
          | None => RegExp.exec r s
          end
        else RegExp.exec r s
    | [] => RegExp.exec r s
    end.
Proof. by destruct s. Qed.

Lemma exec_le (r : RegExp.t) (s : jsstring) (n : nat) :
  RegExp.exec r s = Some n → (n ≤ length s)%nat.
Proof.
  revert s n; induction r as [|[a|a|a] r IH]; intros s n.
  - intros [= <-]. lia.
  - simpl. destruct s as [|c s]; [done|]. destruct (RegExp.accepts a c); [|done].
    destruct (RegExp.exec r s) as [m|] eqn:E; [|done].
    intros [= <-]. apply IH in E. simpl; lia.
  - simpl. destruct s as [|c s]; [apply IH|].
    destruct (RegExp.accepts a c); [|apply IH].
    destruct (RegExp.exec r s) as [m|] eqn:E; [|apply IH].
    intros [= <-]. apply IH in E. simpl; lia.
  - revert n; induction s as [|c s IHs]; intros n; rewrite exec_many; [apply IH|].
    destruct (RegExp.accepts a c); [|apply IH].
    destruct (RegExp.exec (RegExp.Many a :: r) s) as [m|] eqn:E; [|apply IH].
    intros [= <-]. specialize (IHs m eq_refl). simpl; lia.
Qed.

Lemma exec_outer_line (rest : jsstring) :
  RegExp.exec RegExp.outer_line_prefix (js "///" ++ rest)
  = Some (linePrefixLength rest).
Proof.
  destruct rest as [|c rest]; [done|]. cbn. by destruct (isWhiteSpace c).
Qed.

Lemma exec_inner_line (rest : jsstring) :
  RegExp.exec RegExp.inner_line_prefix (js "//!" ++ rest)
  = Some (linePrefixLength rest).
Proof.
  destruct rest as [|c rest]; [done|]. cbn. by destruct (isWhiteSpace c).
Qed.

(** What a pattern removes is a prefix: a suffix of the string is left. *)
Lemma remove_suffix (r : RegExp.t) (s : jsstring) :
  RegExp.remove r s `suffix_of` s.
Proof.
  unfold RegExp.remove. destruct (RegExp.exec r s); [apply suffix_drop|done].
Qed.

Lemma drop_trimStart (s : jsstring) :
  drop (length s - length (trimStart s)) s = trimStart s.
Proof.
  destruct (trimStart_suffix s) as [k Hk]. rewrite Hk at 1 3.
  rewrite length_app.
  replace (length k + length (trimStart s) - length (trimStart s))%nat
    with (length k) by lia.
  by rewrite drop_app_length.
Qed.

Lemma STAR_not_space (c : char) : isWhiteSpace c = true → (c =? STAR)%N = false.
Proof.
  intros Hc. destruct (N.eqb_spec c STAR) as [->|]; [|done].
  by vm_compute in Hc.
Qed.

(** [/^\s*\*\s?/] skips the leading whitespace and then needs a [*]:
    its match on a line, in terms of the line without that whitespace. *)
Lemma exec_block_line (line : jsstring) :
  RegExp.exec RegExp.block_line_prefix line
  = match trimStart line with
    | c :: rest =>
        if (c =? STAR)%N then
          Some (length line - length (trimStart line)
                + match rest with
                  | d :: _ => if isWhiteSpace d then 2 else 1
                  | [] => 1
                  end)%nat
        else None
    | [] => None
    end.
Proof.
  unfold RegExp.block_line_prefix.
  induction line as [|c line IH]; [done|].
  rewrite exec_many. cbn [RegExp.accepts trimStart].
  destruct (isWhiteSpace c) eqn:Hc.
  - rewrite IH. destruct (trimStart line) as [|d rest] eqn:Ht.
    + cbn. by rewrite (STAR_not_space c Hc).
    + pose proof (suffix_length _ _ (trimStart_suffix line)) as Hlen.
      rewrite Ht in Hlen. cbn [length] in *.
      destruct (d =? STAR)%N.
      * f_equal. lia.
      * cbn. by rewrite (STAR_not_space c Hc).
  - cbn. destruct (c =? STAR)%N; [|done].
    destruct line as [|d rest]; cbn; [f_equal; lia|].
    destruct (isWhiteSpace d); cbn; f_equal; lia.
Qed.

(** The replacement of the source on a line is [stripLeadingStar]. *)
Lemma remove_block_line (line : jsstring) :
  RegExp.remove RegExp.block_line_prefix line = stripLeadingStar line.
Proof.
  unfold RegExp.remove, stripLeadingStar. rewrite exec_block_line.
  pose proof (drop_trimStart line) as Hd.
  destruct (trimStart line) as [|c rest]; [done|].
  destruct (c =? STAR)%N; [|done].
  rewrite <- drop_drop, Hd.
  destruct rest as [|d rest']; [done|]. by destruct (isWhiteSpace d).
Qed.

(** [stripLeadingStar] by the shape of the line: whitespace and a [*],
    whitespace and another character, whitespace only. *)
Lemma trimStart_app (ws s : jsstring) :
  Forall (λ c, isWhiteSpace c = true) ws → trimStart (ws ++ s) = trimStart s.
Proof. induction 1 as [|c ws Hc _ IH]; [done|]. cbn. by rewrite Hc. Qed.

Lemma stripLeadingStar_star (ws rest : jsstring) :
  Forall (λ c, isWhiteSpace c = true) ws →
  stripLeadingStar (ws ++ STAR :: rest)
  = match rest with
    | d :: rest' => if isWhiteSpace d then rest' else rest
    | [] => []
    end.
Proof. intros Hws. unfold stripLeadingStar. by rewrite trimStart_app. Qed.

Lemma stripLeadingStar_other (ws rest : jsstring) (c : char) :
  Forall (λ c, isWhiteSpace c = true) ws →
  isWhiteSpace c = false → c ≠ STAR →
  stripLeadingStar (ws ++ c :: rest) = ws ++ c :: rest.
Proof.
  intros Hws Hc Hstar. unfold stripLeadingStar.
  rewrite trimStart_app by done. cbn. rewrite Hc.
  by destruct (N.eqb_spec c STAR).
Qed.

Lemma stripLeadingStar_blank (ws : jsstring) :
  Forall (λ c, isWhiteSpace c = true) ws → stripLeadingStar ws = ws.
Proof.
  intros Hws. unfold stripLeadingStar.
  rewrite <- (right_id_L [] (++) ws) at 1. by rewrite trimStart_app.
Qed.

Lemma processBlockContent_sublist (s : jsstring) :
  processBlockContent s `sublist_of` s.
Proof.
  unfold processBlockContent. etransitivity; [apply trim_sublist|].
  rewrite <- (join_split LF s) at 2.
  apply join_sublist, Forall2_fmap_l, Forall_Forall2_diag, Forall_forall.
  intros l _. apply suffix_sublist, remove_suffix.
Qed.

(** ** The classifier *)

(** A token of a documentation kind starts with the marker of its kind. *)
Lemma getRustdocType_marker (text : jsstring) (docType : RustdocType) :
  getRustdocType text = Some docType → ∃ rest, text = marker docType ++ rest.
Proof.
  unfold getRustdocType.
  destruct (startsWith text (js "///")) eqn:H1.
  { intros [= <-]. by apply startsWith_spec. }
  destruct (startsWith text (js "//!")) eqn:H2.
  { intros [= <-]. by apply startsWith_spec. }
  destruct (startsWith text (js "/**")) eqn:H3.
  - destruct (startsWith text (js "/***")) eqn:H4; cbn [andb negb].
    + destruct (startsWith text (js "/*!")) eqn:H5; [|done].
      intros [= <-]. by apply startsWith_spec.
    + intros [= <-]. by apply startsWith_spec.
  - cbn [andb negb]. destruct (startsWith text (js "/*!")) eqn:H5; [|done].
    intros [= <-]. by apply startsWith_spec.
Qed.

Lemma marker_length (docType : RustdocType) : length (marker docType) = 3%nat.
Proof. by destruct docType. Qed.

Lemma linePrefixLength_bounds (rest : jsstring) :
  (3 ≤ linePrefixLength rest ≤ 3 + length rest)%nat
  ∧ (linePrefixLength rest = 3 ∨ linePrefixLength rest = 4)%nat.
Proof.
  destruct rest as [|c rest]; cbn; [lia|]. destruct (isWhiteSpace c); cbn; lia.
Qed.

(** The prefix that [extractContent] reports on a token of the kind. *)
Lemma prefixLength_marker (docType : RustdocType) (rest : jsstring) :
  prefixLength (extractContent (marker docType ++ rest) docType)
  = if isLine docType then linePrefixLength rest else 3%nat.
Proof.
  destruct docType; cbn [extractContent prefixLength marker isLine];
    [by rewrite exec_outer_line | by rewrite exec_inner_line | done | done].
Qed.

Lemma content_line (docType : RustdocType) (rest : jsstring) :
  isLine docType = true →
  content (extractContent (marker docType ++ rest) docType)
  = drop (linePrefixLength rest - 3) rest.
Proof.
  pose proof (linePrefixLength_bounds rest) as [Hb _].
  destruct docType; [| |done|done]; intros _;
    cbn [extractContent content marker];
    [rewrite exec_outer_line | rewrite exec_inner_line];
    unfold slice_from;
    replace (linePrefixLength rest) with (3 + (linePrefixLength rest - 3))%nat
      at 1 by lia;
    by rewrite <- drop_drop.
Qed.

Lemma content_block (docType : RustdocType) (text : jsstring) :
  isBlock docType = true →
  content (extractContent text docType)
  = processBlockContent (dropLast 2 (drop 3 text)).
Proof.
  destruct docType; [done|done| |]; intros _; cbn; by rewrite slice_dropLast.
Qed.

(** ** Positions *)

Lemma advance_cons (p : Point.t) (c : char) (s : jsstring) :
  advance p (c :: s)
  = advance (if (c =? LF)%N then Point.mk (Point.row p + 1) 0
             else Point.mk (Point.row p) (Point.column p + 1)) s.
Proof. done. Qed.

(** Moving over a text never goes back a row, and stays on the row only
    by moving right by the length of the text. *)
Lemma advance_row (p : Point.t) (s : jsstring) :
  Point.row p < Point.row (advance p s)
  ∨ (Point.row (advance p s) = Point.row p
     ∧ Point.column (advance p s) = Point.column p + Z.of_nat (length s)).
Proof.
  revert p; induction s as [|c s IH]; intros p.
  - right. cbn. split; [done|lia].
  - rewrite advance_cons. destruct (c =? LF)%N.
    + left. destruct (IH (Point.mk (Point.row p + 1) 0)) as [H|[H _]];
        cbn in H; lia.
    + destruct (IH (Point.mk (Point.row p) (Point.column p + 1))) as [H|[H1 H2]];
        cbn in *; [by left|right]. split; [done|lia].
Qed.

(** ** Runs and the grouping loop *)

Section adjacent.
Context {A : Type} (R : A → A → Prop).

Lemma adjacent_nil : adjacent R [].
Proof. intros i a b Ha. by rewrite lookup_nil in Ha. Qed.

Lemma adjacent_singleton (x : A) : adjacent R [x].
Proof. intros i a b _ Hb. by rewrite lookup_cons in Hb. Qed.

Lemma adjacent_cons_inv (x : A) (l : list A) :
  adjacent R (x :: l) → adjacent R l.
Proof. intros H i a b Ha Hb. exact (H (S i) a b Ha Hb). Qed.

(** Adding an element that the last one is related to. *)
Lemma adjacent_snoc (l : list A) (c : A) :
  adjacent R l → (∀ a, last l = Some a → R a c) → adjacent R (l ++ [c]).
Proof.
  intros Hl Hc i a b Ha Hb.
  pose proof (lookup_lt_Some _ _ _ Hb) as Hi. rewrite length_app in Hi; cbn in Hi.
  rewrite lookup_app_l in Ha by lia.
  destruct (decide (S i < length l)%nat) as [Hlt|Hge].
  - rewrite lookup_app_l in Hb by lia. eauto.
  - rewrite lookup_app_r in Hb by lia.
    replace (S i - length l)%nat with 0%nat in Hb by lia. injection Hb as <-.
    apply Hc. rewrite last_lookup. by replace (pred (length l)) with i by lia.
Qed.

(** Changing the last element for one that is related in the same way. *)
Lemma adjacent_replace_last (l : list A) (x y : A) :
  adjacent R (l ++ [x]) → (∀ a, R a x → R a y) → adjacent R (l ++ [y]).
Proof.
  intros Hl Hxy i a b Ha Hb.
  pose proof (lookup_lt_Some _ _ _ Hb) as Hi. rewrite length_app in Hi; cbn in Hi.
  rewrite lookup_app_l in Ha by lia.
  destruct (decide (S i < length l)%nat) as [Hlt|Hge].
  - rewrite lookup_app_l in Hb by lia.
    apply (Hl i); [by apply lookup_app_l_Some | by apply lookup_app_l_Some].
  - rewrite lookup_app_r in Hb by lia.
    replace (S i - length l)%nat with 0%nat in Hb by lia. injection Hb as <-.
    apply Hxy, (Hl i); [by apply lookup_app_l_Some|].
    rewrite lookup_app_r by lia. by replace (S i - length l)%nat with 0%nat by lia.
Qed.

(** In a list that is a run, the end of a proper prefix is related to
    what follows it. *)
Lemma adjacent_middle (l k : list A) (a x : A) :
  adjacent R (l ++ x :: k) → last l = Some a → R a x.
Proof.
  intros H Ha. apply last_Some in Ha as [l' ->].
  apply (H (length l')).
  - rewrite <- (assoc_L (++)). cbn. by apply list_lookup_middle.
  - rewrite lookup_app_r by (rewrite length_app; cbn; lia).
    rewrite length_app; cbn. by replace (S (length l') - (length l' + 1))%nat with 0%nat by lia.
Qed.

End adjacent.

Lemma concat_snoc {A} (ls : list (list A)) (l : list A) :
  concat (ls ++ [l]) = concat ls ++ l.
Proof. rewrite concat_app. cbn. by rewrite (right_id_L [] (++)). Qed.

Lemma group_inv_init (nodes : list SyntaxNode.t) (firstNode : SyntaxNode.t) :
  nodes !! 0%nat = Some firstNode → group_inv nodes 0 ([], [firstNode]).
Proof.
  intros H0. destruct nodes as [|x nodes]; [done|]. injection H0 as ->.
  repeat split; cbn.
  - repeat constructor. done.
  - repeat constructor. apply adjacent_singleton.
  - apply adjacent_singleton.
Qed.

(** One turn of the loop keeps the invariant. *)
Lemma group_inv_step (nodes : list SyntaxNode.t) (n : nat)
    (st : list (list SyntaxNode.t) * list SyntaxNode.t) :
  (S n < length nodes)%nat →
  group_inv nodes n st → group_inv nodes (S n) (groupStep nodes st (S n)).
Proof.
  intros Hn [(Hcat & Hne & Hrun & Hbr) Hlast]. destruct st as [groups cur].
  cbn [fst snd] in *.
  destruct (lookup_lt_is_Some_2 nodes n ltac:(lia)) as [prevNode Hp].
  destruct (lookup_lt_is_Some_2 nodes (S n) ltac:(lia)) as [currentNode Hc].
  unfold groupStep. replace (S n - 1)%nat with n by lia. rewrite Hp, Hc.
  rewrite Hp in Hlast.
  apply Forall_app in Hne as [Hne Hne1]. apply Forall_app in Hrun as [Hrun Hrun1].
  rewrite Forall_singleton in Hne1, Hrun1.
  rewrite concat_snoc in Hcat.
  destruct (Z.eqb_spec (Point.row (SyntaxNode.startPosition currentNode))
              (Point.row (SyntaxNode.startPosition prevNode) + 1)) as [Hrow|Hrow].
  - split; cbn [fst snd]; [|by rewrite last_snoc].
    split; [|split; [|split]].
    + rewrite concat_snoc, (assoc_L (++)), Hcat. symmetry. by apply take_S_r.
    + apply Forall_app; split; [done|]. apply Forall_singleton. by destruct cur.
    + apply Forall_app; split; [done|]. apply Forall_singleton.
      apply adjacent_snoc; [done|]. intros a Ha. rewrite Hlast in Ha.
      by injection Ha as <-.
    + apply (adjacent_replace_last _ _ cur); [done|].
      intros g Hg a b Ha Hb. apply Hg; [done|]. by destruct cur.
  - split; cbn [fst snd]; [|done].
    split; [|split; [|split]].
    + rewrite !concat_snoc, Hcat. symmetry. by apply take_S_r.
    + apply Forall_app; split; [|by apply Forall_singleton].
      apply Forall_app; split; [done|by apply Forall_singleton].
    + apply Forall_app; split; [|apply Forall_singleton, adjacent_singleton].
      apply Forall_app; split; [done|by apply Forall_singleton].
    + apply adjacent_snoc; [done|]. intros g Hg. rewrite last_snoc in Hg.
      injection Hg as <-. intros a b Ha Hb. rewrite Hlast in Ha.
      injection Ha as <-. injection Hb as <-. exact Hrow.
Qed.

Lemma group_inv_loop (nodes : list SyntaxNode.t) (firstNode : SyntaxNode.t)
    (n : nat) :
  nodes !! 0%nat = Some firstNode → (n < length nodes)%nat →
  group_inv nodes n (foldl (groupStep nodes) ([], [firstNode]) (seq 1 n)).
Proof.
  intros H0. induction n as [|n IH]; intros Hn.
  - by apply group_inv_init.
  - rewrite seq_S, foldl_app. cbn [foldl Nat.add].
    apply group_inv_step; [done|]. apply IH. lia.
Qed.

Lemma groupConsecutiveNodes_cons (firstNode : SyntaxNode.t)
    (rest : list SyntaxNode.t) :
  groupConsecutiveNodes (firstNode :: rest)
  = (let st := foldl (groupStep (firstNode :: rest)) ([], [firstNode])
                 (seq 1 (length rest)) in
     st.1 ++ [st.2]).
Proof.
  unfold groupConsecutiveNodes. cbn [length].
  replace (S (length rest) - 1)%nat with (length rest) by lia.
  by destruct (foldl _ _ _).
Qed.

(** The groups that the source returns are the maximal runs. *)
Lemma groupConsecutiveNodes_runs (nodes : list SyntaxNode.t) :
  maximal_runs nodes (groupConsecutiveNodes nodes).
Proof.
  destruct nodes as [|firstNode rest].
  - repeat split; [constructor|constructor|apply adjacent_nil].
  - rewrite groupConsecutiveNodes_cons. cbn zeta.
    pose proof (group_inv_loop (firstNode :: rest) firstNode (length rest)
                  eq_refl ltac:(cbn; lia)) as [H _].
    rewrite take_ge in H by (cbn; lia). exact H.
Qed.

(** A run that is followed by a break cannot be the proper prefix of a
    run. *)
Lemma run_not_extended (g g' k : list SyntaxNode.t)
    (gs1 gs1' : list (list SyntaxNode.t)) :
  g = g' ++ k → g' ≠ [] → adjacent consecutive g →
  concat gs1' = k ++ concat gs1 → Forall (λ g, g ≠ []) gs1' →
  adjacent breaks (g' :: gs1') → k = [].
Proof.
  intros -> Hne Hrun Hcat Hne' Hbr. destruct k as [|x k]; [done|]. exfalso.
  destruct gs1' as [|g2 gs2]; [done|].
  apply Forall_cons in Hne' as [Hg2 _].
  destruct g2 as [|y g2]; [done|]. cbn in Hcat. injection Hcat as -> _.
  apply last_is_Some in Hne as [a Ha].
  apply (Hbr 0%nat (g') (x :: g2) eq_refl eq_refl a x Ha eq_refl).
  by apply (adjacent_middle consecutive g' k a x).
Qed.

(** There is one way only to cut a sequence into maximal runs. *)
Lemma maximal_runs_unique (nodes : list SyntaxNode.t)
    (gs gs' : list (list SyntaxNode.t)) :
  maximal_runs nodes gs → maximal_runs nodes gs' → gs = gs'.
Proof.
  intros (Hcat & Hne & Hrun & Hbr) (Hcat' & Hne' & Hrun' & Hbr').
  rewrite <- Hcat' in Hcat. clear Hcat' nodes.
  revert gs' Hcat Hne' Hrun' Hbr'.
  induction gs as [|g gs IH]; intros [|g' gs'] Hcat Hne' Hrun' Hbr'.
  - done.
  - apply Forall_cons in Hne' as [Hg' _]. cbn in Hcat.
    symmetry in Hcat. apply app_eq_nil in Hcat as [-> _]. done.
  - apply Forall_cons in Hne as [Hg _]. cbn in Hcat.
    apply app_eq_nil in Hcat as [-> _]. done.
  - apply Forall_cons in Hne as [Hg Hne]. apply Forall_cons in Hrun as [Hr Hrun].
    apply Forall_cons in Hne' as [Hg' Hne']. apply Forall_cons in Hrun' as [Hr' Hrun'].
    cbn in Hcat.
    assert (g = g' ∧ concat gs = concat gs') as [-> Hcat1].
    { apply app_eq_inv in Hcat as [(k & Hk & Hk')|(k & Hk & Hk')].
      - pose proof (run_not_extended g g' k gs gs' Hk Hg' Hr Hk' Hne' Hbr') as ->.
        rewrite (right_id_L [] (++)) in Hk. by subst.
      - pose proof (run_not_extended g' g k gs' gs Hk Hg Hr' Hk' Hne Hbr) as ->.
        rewrite (right_id_L [] (++)) in Hk. by subst. }
    f_equal. apply IH; try done; by eapply adjacent_cons_inv.
Qed.

(** ** The tree builder *)

Lemma traverse_Some (node : SyntaxNode.t) (c : TxtStrNode.t) :
  traverse node = Some c ↔
  ∃ docType, getRustdocType (SyntaxNode.text node) = Some docType
             ∧ c = createStrNode node docType.
Proof.
  unfold traverse. destruct (getRustdocType _) as [docType|].
  - split; [intros [= <-]; eauto | by intros (? & [= <-] & ->)].
  - split; [done | by intros (? & ? & _)].
Qed.

Lemma traverse_None (node : SyntaxNode.t) :
  traverse node = None ↔ getRustdocType (SyntaxNode.text node) = None.
Proof. unfold traverse. by destruct (getRustdocType _). Qed.

(** The loop of [createParagraphNode] collects the text nodes of the
    documentation tokens, in order. *)
Lemma foldl_pushStrNode (nodes : list SyntaxNode.t) (acc : list TxtStrNode.t) :
  foldl pushStrNode acc nodes = acc ++ omap traverse nodes.
Proof.
  revert acc; induction nodes as [|node nodes IH]; intros acc; cbn.
  - by rewrite (right_id_L [] (++)).
  - rewrite IH. unfold pushStrNode, traverse.
    destruct (getRustdocType _); [|done]. by rewrite <- (assoc_L (++)).
Qed.

Lemma omap_traverse_nil (nodes : list SyntaxNode.t) :
  omap traverse nodes = [] ↔
  Forall (λ node, getRustdocType (SyntaxNode.text node) = None) nodes.
Proof.
  induction nodes as [|node nodes IH]; cbn; [by split; constructor|].
  rewrite Forall_cons, <- IH, <- traverse_None.
  destruct (traverse node); split; (done || by intros [? ?]).
Qed.

(** What [createParagraphNode] returns, by the text nodes of the group. *)
Lemma createParagraphNode_spec (nodes : list SyntaxNode.t) :
  match omap traverse nodes with
  | [] => createParagraphNode nodes = None
  | children =>
      ∃ p, createParagraphNode nodes = Some p
           ∧ TxtParagraphNode.type p = Paragraph
           ∧ TxtParagraphNode.raw p = join [LF] (SyntaxNode.text <$> nodes)
           ∧ TxtParagraphNode.children p = children
           ∧ spans_children p
  end.
Proof.
  unfold createParagraphNode. rewrite foldl_pushStrNode. cbn [app].
  destruct (decide (length nodes = 0%nat)) as [Hn|Hn].
  { by destruct nodes. }
  destruct (omap traverse nodes) as [|c children] eqn:E; [done|].
  rewrite decide_False by done.
  destruct (last_is_Some (c :: children)) as [_ [lastChild Hl]]; [done|].
  rewrite Hl. cbn [head]. eexists. split; [done|]. cbn.
  repeat split. exists c, lastChild. by cbn.
Qed.

Lemma createParagraphNode_Some (nodes : list SyntaxNode.t)
    (p : TxtParagraphNode.t) :
  createParagraphNode nodes = Some p →
  TxtParagraphNode.type p = Paragraph
  ∧ TxtParagraphNode.raw p = join [LF] (SyntaxNode.text <$> nodes)
  ∧ TxtParagraphNode.children p = omap traverse nodes
  ∧ TxtParagraphNode.children p ≠ []
  ∧ spans_children p.
Proof.
  intros Hp. pose proof (createParagraphNode_spec nodes) as H.
  destruct (omap traverse nodes) as [|c children]; [congruence|].
  destruct H as (p' & Hp' & ? & ? & Hc & ?). rewrite Hp in Hp'.
  injection Hp' as <-. rewrite Hc. done.
Qed.

Lemma createParagraphNode_None (nodes : list SyntaxNode.t) :
  createParagraphNode nodes = None ↔
  Forall (λ node, getRustdocType (SyntaxNode.text node) = None) nodes.
Proof.
  rewrite <- omap_traverse_nil. pose proof (createParagraphNode_spec nodes) as H.
  destruct (omap traverse nodes) as [|c children]; [done|].
  destruct H as (p & -> & _). done.
Qed.

(** The loop of [convertToTextlintAst] collects the paragraphs of the
    groups, in order. *)
Lemma foldl_pushParagraph (groups : list (list SyntaxNode.t))
    (acc : list TxtParagraphNode.t) :
  foldl pushParagraph acc groups = acc ++ omap createParagraphNode groups.
Proof.
  revert acc; induction groups as [|g groups IH]; intros acc; cbn.
  - by rewrite (right_id_L [] (++)).
  - rewrite IH. unfold pushParagraph.
    destruct (createParagraphNode g); [|done]. by rewrite <- (assoc_L (++)).
Qed.

Lemma convertToTextlintAst_unfold (docNodes : list SyntaxNode.t)
    (rawText : jsstring) :
  convertToTextlintAst docNodes rawText
  = match head (paragraphsOf docNodes), last (paragraphsOf docNodes) with
    | Some firstChild, Some lastChild =>
        {| TxtDocumentNode.type := Document;
           TxtDocumentNode.raw := rawText;
           TxtDocumentNode.range :=
             ((TxtParagraphNode.range firstChild).1,
              (TxtParagraphNode.range lastChild).2);
           TxtDocumentNode.loc :=
             {| Location.start :=
                  Location.start (TxtParagraphNode.loc firstChild);
                Location.end_ :=
                  Location.end_ (TxtParagraphNode.loc lastChild) |};
           TxtDocumentNode.children := paragraphsOf docNodes |}
    | _, _ =>
        {| TxtDocumentNode.type := Document;
           TxtDocumentNode.raw := rawText;
           TxtDocumentNode.range := (0, Z.of_nat (length rawText));
           TxtDocumentNode.loc := origin;
           TxtDocumentNode.children := [] |}
    end.
Proof.
  unfold convertToTextlintAst, paragraphsOf. by rewrite foldl_pushParagraph.
Qed.

Lemma convertToTextlintAst_children (docNodes : list SyntaxNode.t)
    (rawText : jsstring) :
  TxtDocumentNode.children (convertToTextlintAst docNodes rawText)
  = paragraphsOf docNodes.
Proof.
  rewrite convertToTextlintAst_unfold.
  destruct (paragraphsOf docNodes) as [|p ps] eqn:E; [done|].
  destruct (last_is_Some (p :: ps)) as [_ [l Hl]]; [done|]. by rewrite Hl.
Qed.

Lemma paragraphsOf_nil (docNodes : list SyntaxNode.t) :
  Forall (λ node, getRustdocType (SyntaxNode.text node) = None) docNodes →
  paragraphsOf docNodes = [].
Proof.
  intros H. unfold paragraphsOf.
  replace (filter isRustdoc docNodes) with (@nil SyntaxNode.t); [done|].
  symmetry. induction H as [|node docNodes Hn _ IH]; [done|].
  rewrite filter_cons_False; [done|]. unfold isRustdoc. by rewrite Hn; intros ?.
Qed.

Lemma paragraphsOf_wf (docNodes : list SyntaxNode.t) :
  Forall wf_paragraph (paragraphsOf docNodes).
Proof.
  apply Forall_forall. intros p Hp.
  apply list_elem_of_omap in Hp as (g & _ & Hg).
  apply createParagraphNode_Some in Hg as (Ht & _ & Hc & Hne & Hs).
  repeat split; try done.
  rewrite Hc. apply Forall_forall. intros c Hin.
  apply list_elem_of_omap in Hin as (node & _ & Hnode).
  apply traverse_Some in Hnode as (docType & _ & ->). done.
Qed.

Lemma filter_isRustdoc_idemp (docNodes : list SyntaxNode.t) :
  filter isRustdoc (filter isRustdoc docNodes) = filter isRustdoc docNodes.
Proof.
  induction docNodes as [|node docNodes IH]; [done|].
  rewrite filter_cons. destruct (decide (isRustdoc node)); [|done].
  by rewrite filter_cons_True, IH.
Qed.

Lemma omap_traverse_filter (docNodes : list SyntaxNode.t) :
  omap traverse (filter isRustdoc docNodes) = omap traverse docNodes.
Proof.
  induction docNodes as [|node docNodes IH]; [done|].
  rewrite filter_cons. destruct (decide (isRustdoc node)) as [Hd|Hd]; cbn.
  - by rewrite IH.
  - rewrite IH. replace (traverse node) with (@None TxtStrNode.t); [done|].
    symmetry. apply traverse_None. unfold isRustdoc in Hd.
    by destruct (getRustdocType _); [destruct Hd|].
Qed.

Lemma children_omap_createParagraphNode (groups : list (list SyntaxNode.t)) :
  concat (TxtParagraphNode.children <$> omap createParagraphNode groups)
  = omap traverse (concat groups).
Proof.
  induction groups as [|g groups IH]; [done|]. cbn. rewrite omap_app.
  destruct (createParagraphNode g) as [p|] eqn:E; cbn.
  - apply createParagraphNode_Some in E as (_ & _ & -> & _). by rewrite IH.
  - apply createParagraphNode_None, omap_traverse_nil in E. by rewrite E, IH.
Qed.

(** The text nodes of the document are those of the documentation tokens,
    in the order of the tokens. *)
Lemma strNodes_convertToTextlintAst (docNodes : list SyntaxNode.t)
    (rawText : jsstring) :
  strNodes (convertToTextlintAst docNodes rawText) = omap traverse docNodes.
Proof.
  unfold strNodes. rewrite convertToTextlintAst_children. unfold paragraphsOf.
  rewrite children_omap_createParagraphNode.
  destruct (groupConsecutiveNodes_runs (filter isRustdoc docNodes)) as [-> _].
  apply omap_traverse_filter.
Qed.

Lemma convertToTextlintAst_wf (docNodes : list SyntaxNode.t)
    (rawText : jsstring) :
  wf_document rawText (convertToTextlintAst docNodes rawText).
Proof.
  pose proof (convertToTextlintAst_children docNodes rawText) as Hc.
  pose proof (paragraphsOf_wf docNodes) as Hwf.
  rewrite convertToTextlintAst_unfold in *.
  destruct (head (paragraphsOf docNodes)) as [f|] eqn:Hf;
    [destruct (last (paragraphsOf docNodes)) as [l|] eqn:Hl|];
    unfold wf_document; cbn in *.
  - rewrite Hf, Hl. done.
  - repeat split; constructor.
  - repeat split; constructor.
Qed.

(** * The properties of the specification *)

(** ** The classifier and the stripping *)

(** C4: [getRustdocType] decides the kind by the prefix of the text:
    [///] is [outer_line], [//!] is [inner_line], [/**] that is not [/***]
    is [outer_block], [/*!] is [inner_block], and anything else is no
    documentation comment.  A token that is none is left out of the
    result of [convertToTextlintAst]: the document is the one built from
    the documentation tokens alone, and its text nodes are exactly their
    text nodes. *)
Theorem getRustdocType_rules (text : jsstring) :
  (startsWith text (js "///") = true → getRustdocType text = Some outer_line)
  ∧ (startsWith text (js "//!") = true → getRustdocType text = Some inner_line)
  ∧ (startsWith text (js "/**") = true → startsWith text (js "/***") = false →
     getRustdocType text = Some outer_block)
  ∧ (startsWith text (js "/*!") = true → getRustdocType text = Some inner_block)
  ∧ (startsWith text (js "///") = false → startsWith text (js "//!") = false →
     startsWith text (js "/**") = false ∨ startsWith text (js "/***") = true →
     startsWith text (js "/*!") = false → getRustdocType text = None)
  ∧ ∀ (docNodes : list SyntaxNode.t) (rawText : jsstring),
      convertToTextlintAst docNodes rawText
      = convertToTextlintAst (filter isRustdoc docNodes) rawText
      ∧ strNodes (convertToTextlintAst docNodes rawText)
        = omap traverse docNodes
      ∧ ∀ node, getRustdocType (SyntaxNode.text node) = None →
                traverse node = None
                ∧ filter isRustdoc (node :: docNodes) = filter isRustdoc docNodes.
Proof.
  repeat split.
  - unfold getRustdocType. by intros ->.
  - intros [rest ->]%startsWith_spec. reflexivity.
  - intros [rest ->]%startsWith_spec H4. unfold getRustdocType.
    rewrite startsWith_app, H4. reflexivity.
  - intros [rest ->]%startsWith_spec. unfold getRustdocType.
    rewrite startsWith_app. reflexivity.
  - intros H1 H2 H3 H5. unfold getRustdocType. rewrite H1, H2, H5.
    by destruct H3 as [-> | ->]; [|destruct (startsWith text (js "/**"))].
  - rewrite !convertToTextlintAst_unfold. unfold paragraphsOf.
    by rewrite filter_isRustdoc_idemp.
  - apply strNodes_convertToTextlintAst.
  - by apply traverse_None.
  - rewrite filter_cons_False; [done|]. unfold isRustdoc. by rewrite H; intros ?.
Qed.

(** C3 (as the code has it): for a block kind, [extractContent] removes
    the first three and the last two characters, takes from every line
    that starts with whitespace and a [*] that whitespace, the [*] and one
    whitespace character after it, keeps every other line as it is, joins
    the lines with line feeds, trims the result and reports the prefix
    length 3; the block comment of the tests gives
    [Block doc comment.\nMultiple lines.]. *)
Theorem extractContent_block (text : jsstring) (docType : RustdocType) :
  isBlock docType = true →
  extractContent text docType
  = {| content :=
         trim (join [LF]
                 (stripLeadingStar <$> split LF (dropLast 2 (drop 3 text))));
       prefixLength := 3 |}
  ∧ content (extractContent blockText outer_block)
    = js "Block doc comment." ++ [LF] ++ js "Multiple lines.".
Proof.
  intros Hb. split; [|by vm_compute].
  assert (extractContent text docType
          = {| content := content (extractContent text docType);
               prefixLength := 3 |}) as ->
    by (by destruct docType).
  f_equal. rewrite content_block by done. unfold processBlockContent.
  do 2 f_equal. apply list_fmap_ext. intros _ line _. apply remove_block_line.
Qed.

Lemma extractContent_block_witness :
  extractContent starlessText inner_block
  = {| content :=
         trim (join [LF]
                 (stripLeadingStar <$> split LF (dropLast 2 (drop 3 starlessText))));
       prefixLength := 3 |}
  ∧ content (extractContent blockText outer_block)
    = js "Block doc comment." ++ [LF] ++ js "Multiple lines.".
Proof. apply (extractContent_block starlessText inner_block). reflexivity. Defined.

(** C3 as stated fails: with the [*] optional, the whitespace before [b]
    on the starless line would go; the code keeps it. *)
Lemma block_optional_star_counterexample :
  extractContent starlessText outer_block
  ≠ extractBlock_optional_star starlessText
  ∧ content (extractContent starlessText outer_block)
    = js "a" ++ [LF] ++ js "   b"
  ∧ content (extractBlock_optional_star starlessText)
    = js "a" ++ [LF] ++ js "b".
Proof. split; [|split]; by vm_compute. Qed.

(** A line is its leading whitespace and what [trimStart] leaves. *)
Lemma trimStart_split (line : jsstring) :
  ∃ ws, line = ws ++ trimStart line ∧ Forall (λ c, isWhiteSpace c = true) ws.
Proof.
  induction line as [|c line (ws & Hline & Hws)]; [by exists []|]. cbn.
  destruct (isWhiteSpace c) eqn:Hc; [|by exists []].
  exists (c :: ws). split; [by rewrite Hline at 1|by constructor].
Qed.

Lemma trimStart_star (ws after : jsstring) :
  Forall (λ c, isWhiteSpace c = true) ws →
  trimStart (ws ++ STAR :: after) = STAR :: after.
Proof. intros Hws. by rewrite trimStart_app. Qed.

(** What the pattern of the source takes from a line is its line
    marker. *)
Lemma stripLeadingStar_withoutLineMarker (line : jsstring) :
  withoutLineMarker line (stripLeadingStar line).
Proof.
  unfold stripLeadingStar. destruct (trimStart_split line) as (ws & Hline & Hws).
  destruct (trimStart line) as [|c rest] eqn:E.
  - right. split; [|done]. intros ws' after Hws' ->.
    by rewrite trimStart_star in E.
  - destruct (N.eqb_spec c STAR) as [->|Hc].
    + left. exists ws, rest. split; [done|]. split; [done|].
      destruct rest as [|d rest']; [by left|].
      destruct (isWhiteSpace d) eqn:Hd; [right; by exists d|left].
      split; [done|]. by intros ? [= <-].
    + right. split; [|done]. intros ws' after Hws' ->.
      rewrite trimStart_star in E by done. by injection E as <- _.
Qed.

(** C8: on a token of a documentation kind, the text is the marker of
    the kind and a rest, and the content holds nothing of the markers.
    For a line kind the rest is at most one whitespace character and the
    content.  For a block kind the content is what trimming leaves of
    the lines of the body, joined by line feeds, where the body is the
    rest without its last two characters (the closing marker) and every
    line is without its line marker: the whitespace, the [*] and one
    whitespace character after it are gone from every line that starts
    with whitespace and a [*]; so the content is drawn, in order, from
    the characters of the body. *)
Theorem content_without_markers (text : jsstring) (docType : RustdocType) :
  getRustdocType text = Some docType →
  ∃ rest,
    text = marker docType ++ rest
    ∧ if isLine docType
      then
        content (extractContent text docType) `suffix_of` rest
        ∧ ∃ sep,
            rest = sep ++ content (extractContent text docType)
            ∧ (sep = [] ∨ ∃ c, sep = [c] ∧ isWhiteSpace c = true)
      else
        content (extractContent text docType) `sublist_of` dropLast 2 rest
        ∧ ∃ lines,
            Forall2 withoutLineMarker (split LF (dropLast 2 rest)) lines
            ∧ content (extractContent text docType) = trim (join [LF] lines).
Proof.
  intros [rest ->]%getRustdocType_marker. exists rest. split; [done|].
  destruct (isLine docType) eqn:Hl.
  - rewrite content_line by done. split; [apply suffix_drop|].
    destruct rest as [|c rest]; cbn [linePrefixLength].
    + exists []. split; [done|by left].
    + destruct (isWhiteSpace c) eqn:Hc.
      * exists [c]. split; [done|]. right. by exists c.
      * exists []. split; [done|by left].
  - rewrite content_block by (unfold isBlock; by rewrite Hl).
    replace (drop 3 (marker docType ++ rest)) with rest by (by destruct docType).
    split; [apply processBlockContent_sublist|].
    exists (stripLeadingStar <$> split LF (dropLast 2 rest)). split.
    + apply Forall2_fmap_r, Forall_Forall2_diag, Forall_forall.
      intros line _. apply stripLeadingStar_withoutLineMarker.
    + unfold processBlockContent. do 2 f_equal.
      apply list_fmap_ext. intros i line _. apply remove_block_line.
Qed.

Lemma content_without_markers_witness :
  ∃ rest,
    blockText = marker outer_block ++ rest
    ∧ content (extractContent blockText outer_block) `sublist_of` dropLast 2 rest
    ∧ ∃ lines,
        Forall2 withoutLineMarker (split LF (dropLast 2 rest)) lines
        ∧ content (extractContent blockText outer_block) = trim (join [LF] lines).
Proof. apply (content_without_markers blockText outer_block). reflexivity. Defined.

(** The line marker of a line determines what is left of it: there is
    one way only to be without it. *)
Lemma withoutLineMarker_unique (line stripped stripped' : jsstring) :
  withoutLineMarker line stripped → withoutLineMarker line stripped' →
  stripped = stripped'.
Proof.
  assert (Hshape : ∀ ws after ws' after',
            Forall (λ c, isWhiteSpace c = true) ws →
            Forall (λ c, isWhiteSpace c = true) ws' →
            ws ++ STAR :: after = ws' ++ STAR :: after' → after = after').
  { intros ws after ws' after' Hws Hws' Heq.
    apply (f_equal trimStart) in Heq. rewrite !trimStart_star in Heq by done.
    by injection Heq. }
  intros [(ws & after & -> & Hws & H)|[Hno ->]]
         [(ws' & after' & Heq & Hws' & H')|[Hno' ->]].
  - pose proof (Hshape _ _ _ _ Hws Hws' Heq) as <-.
    destruct H as [[-> Hh]|(c & Ha & Hc)], H' as [[-> Hh']|(c' & Ha' & Hc')].
    + done.
    + subst after. by rewrite (Hh c' eq_refl) in Hc'.
    + subst after. by rewrite (Hh' c eq_refl) in Hc.
    + subst after. by injection Ha'.
  - by destruct (Hno' ws after Hws).
  - by destruct (Hno ws' after' Hws').
  - done.
Qed.

(** The content of the block comment of the tests: the line markers are
    gone from it. *)
Lemma blockText_content :
  content (extractContent blockText outer_block)
  = js "Block doc comment." ++ [LF] ++ js "Multiple lines."
  ∧ withoutLineMarker (js " * Block doc comment.") (js "Block doc comment.")
  ∧ ¬ withoutLineMarker (js " * Block doc comment.") (js " * Block doc comment.").
Proof.
  split; [by vm_compute|].
  assert (Hw : withoutLineMarker (js " * Block doc comment.")
                 (js "Block doc comment."))
    by apply (stripLeadingStar_withoutLineMarker (js " * Block doc comment.")).
  split; [done|]. intros Hid.
  by pose proof (withoutLineMarker_unique _ _ _ Hw Hid).
Qed.

(** ** Text nodes *)

(** The range and the content of the text node of a token of its kind. *)
Lemma createStrNode_marker (node : SyntaxNode.t) (docType : RustdocType)
    (rest : jsstring) :
  wf_token node → SyntaxNode.text node = marker docType ++ rest →
  let n := createStrNode node docType in
  let prefix := if isLine docType then linePrefixLength rest else 3%nat in
  (TxtStrNode.range n).2 - (TxtStrNode.range n).1
  = Z.of_nat (3 + length rest) - Z.of_nat prefix
  ∧ Location.start (TxtStrNode.loc n)
    = {| Position.line := Point.row (SyntaxNode.startPosition node) + 1;
         Position.column :=
           Point.column (SyntaxNode.startPosition node) + Z.of_nat prefix |}.
Proof.
  intros [Hend _] Ht. unfold createStrNode. rewrite Ht, prefixLength_marker.
  cbn. split; [|done]. rewrite Hend, Ht, length_app, marker_length. lia.
Qed.

(** C5: the text node of a well-formed line-comment token has a range
    as long as its content.  For a block comment the range is longer
    than the content, by the two closing characters at least when the
    token has them: the prefix length 3 accounts for the opening marker
    only. *)
Theorem line_range_is_content_length (node : SyntaxNode.t)
    (docType : RustdocType) :
  wf_token node → getRustdocType (SyntaxNode.text node) = Some docType →
  let n := createStrNode node docType in
  let span := (TxtStrNode.range n).2 - (TxtStrNode.range n).1 in
  (isLine docType = true → span = Z.of_nat (length (TxtStrNode.raw n)))
  ∧ (isBlock docType = true →
     Z.of_nat (length (TxtStrNode.raw n)) <= span
     ∧ ((5 ≤ length (SyntaxNode.text node))%nat →
        Z.of_nat (length (TxtStrNode.raw n)) + 2 <= span)).
Proof.
  intros Hwf Hk. destruct (getRustdocType_marker _ _ Hk) as [rest Ht].
  destruct (createStrNode_marker node docType rest Hwf Ht) as [Hspan _].
  cbn zeta in *. rewrite Hspan. unfold createStrNode. cbn [TxtStrNode.raw].
  rewrite Ht. pose proof (linePrefixLength_bounds rest) as [Hb _]. split.
  - intros Hl. rewrite Hl, content_line, length_drop by done. lia.
  - intros Hbk. rewrite content_block by done.
    pose proof (sublist_length _ _
                  (processBlockContent_sublist
                     (dropLast 2 (drop 3 (marker docType ++ rest))))) as Hlen.
    replace (drop 3 (marker docType ++ rest)) with rest in *
      by (by destruct docType).
    unfold dropLast in Hlen at 2. rewrite length_take in Hlen.
    unfold isBlock in Hbk. apply negb_true_iff in Hbk. rewrite Hbk.
    rewrite length_app, marker_length. lia.
Qed.

Lemma line_range_is_content_length_witness :
  let n := createStrNode (lineToken 0 0 "/// This is a rustdoc comment.")
             outer_line in
  let span := (TxtStrNode.range n).2 - (TxtStrNode.range n).1 in
  (isLine outer_line = true → span = Z.of_nat (length (TxtStrNode.raw n)))
  ∧ (isBlock outer_line = true →
     Z.of_nat (length (TxtStrNode.raw n)) <= span
     ∧ ((5 ≤ length (SyntaxNode.text
                       (lineToken 0 0 "/// This is a rustdoc comment.")))%nat →
        Z.of_nat (length (TxtStrNode.raw n)) + 2 <= span)).
Proof.
  apply (line_range_is_content_length
           (lineToken 0 0 "/// This is a rustdoc comment.") outer_line).
  - split; reflexivity.
  - reflexivity.
Defined.

(** C6: the text node of a well-formed token of a documentation kind
    has a range whose start is not after its end, and a start position
    (the row of the token plus one, its column plus the prefix length)
    that is not after its end position (the end of the token, the row
    plus one and the column as it is). *)
Theorem str_node_ordered (node : SyntaxNode.t) (docType : RustdocType) :
  wf_token node → getRustdocType (SyntaxNode.text node) = Some docType →
  let n := createStrNode node docType in
  (TxtStrNode.range n).1 <= (TxtStrNode.range n).2
  ∧ Position_le (Location.start (TxtStrNode.loc n))
      (Location.end_ (TxtStrNode.loc n))
  ∧ Location.start (TxtStrNode.loc n)
    = {| Position.line := Point.row (SyntaxNode.startPosition node) + 1;
         Position.column :=
           Point.column (SyntaxNode.startPosition node)
           + Z.of_nat (prefixLength
                         (extractContent (SyntaxNode.text node) docType)) |}
  ∧ Location.end_ (TxtStrNode.loc n)
    = {| Position.line := Point.row (SyntaxNode.endPosition node) + 1;
         Position.column := Point.column (SyntaxNode.endPosition node) |}.
Proof.
  intros Hwf Hk. destruct (getRustdocType_marker _ _ Hk) as [rest Ht].
  destruct (createStrNode_marker node docType rest Hwf Ht) as [Hspan Hstart].
  cbn zeta in *. pose proof (linePrefixLength_bounds rest) as [Hb _].
  assert (Hp : (3 ≤ (if isLine docType then linePrefixLength rest else 3%nat)
                ≤ 3 + length rest)%nat) by (destruct (isLine docType); lia).
  split; [lia|]. split; [|split; [|done]].
  - rewrite Hstart. unfold createStrNode, Position_le. cbn.
    destruct Hwf as [_ ->].
    destruct (advance_row (SyntaxNode.startPosition node) (SyntaxNode.text node))
      as [Hrow|[Hrow Hcol]]; [left; lia|right].
    rewrite Hrow, Hcol, Ht, length_app, marker_length. lia.
  - unfold createStrNode. cbn. by rewrite Ht, prefixLength_marker.
Qed.

Lemma str_node_ordered_witness :
  let n := createStrNode (lineToken 2 40 "//! Crate-level documentation.")
             inner_line in
  (TxtStrNode.range n).1 <= (TxtStrNode.range n).2
  ∧ Position_le (Location.start (TxtStrNode.loc n))
      (Location.end_ (TxtStrNode.loc n))
  ∧ Location.start (TxtStrNode.loc n)
    = {| Position.line := 2 + 1; Position.column := 0 + Z.of_nat 4 |}
  ∧ Location.end_ (TxtStrNode.loc n)
    = {| Position.line := 2 + 1; Position.column := 30 |}.
Proof.
  apply (str_node_ordered (lineToken 2 40 "//! Crate-level documentation.")
           inner_line).
  - split; reflexivity.
  - reflexivity.
Defined.

Lemma omap_traverse_length (nodes : list SyntaxNode.t) :
  (length (omap traverse nodes) ≤ length nodes)%nat.
Proof.
  induction nodes as [|x nodes IH]; [done|].
  change (omap traverse (x :: nodes))
    with (match traverse x with
          | Some c => c :: omap traverse nodes
          | None => omap traverse nodes
          end).
  destruct (traverse x); cbn [length]; lia.
Qed.

Lemma omap_traverse_length_lt (nodes : list SyntaxNode.t) (plain : SyntaxNode.t) :
  plain ∈ nodes → getRustdocType (SyntaxNode.text plain) = None →
  (length (omap traverse nodes) < length nodes)%nat.
Proof.
  intros Hin Hn. apply list_elem_of_split in Hin as (l1 & l2 & ->).
  rewrite omap_app, !length_app.
  change (omap traverse (plain :: l2))
    with (match traverse plain with
          | Some c => c :: omap traverse l2
          | None => omap traverse l2
          end).
  apply traverse_None in Hn. rewrite Hn. cbn [length].
  pose proof (omap_traverse_length l1). pose proof (omap_traverse_length l2).
  lia.
Qed.

(** ** Groups, paragraphs and the document *)

(** C2: [groupConsecutiveNodes] cuts every sequence of tokens into its
    maximal runs: the groups, one after the other, are the sequence; no
    group is empty; in a group every token starts on the row after the
    start row of the token before it; where a group ends the next token
    does not; and no other list of groups does that.  Tokens on the rows
    2, 3 and 5 make the groups of the first two and of the third, one
    token makes one group, no token makes no group. *)
Theorem groupConsecutiveNodes_maximal_runs (nodes : list SyntaxNode.t) :
  maximal_runs nodes (groupConsecutiveNodes nodes)
  ∧ (∀ groups, maximal_runs nodes groups → groups = groupConsecutiveNodes nodes)
  ∧ (∀ a b c, startRow a = 2 → startRow b = 3 → startRow c = 5 →
              groupConsecutiveNodes [a; b; c] = [[a; b]; [c]])
  ∧ (∀ a, groupConsecutiveNodes [a] = [[a]])
  ∧ groupConsecutiveNodes [] = [].
Proof.
  split; [apply groupConsecutiveNodes_runs|]. split; [|split; [|done]].
  - intros groups H. apply (maximal_runs_unique nodes); [done|].
    apply groupConsecutiveNodes_runs.
  - intros a b c Ha Hb Hc. unfold startRow in *.
    rewrite groupConsecutiveNodes_cons. unfold groupStep.
    cbn -[Z.add Z.eqb]. by rewrite Ha, Hb, Hc.
Qed.

(** C7: a paragraph of the document has children, the range from the
    start of the first child to the end of the last, and the location
    from the start of the first child to the end of the last; and a group
    gives no paragraph exactly when none of its tokens is a documentation
    comment. *)
Theorem paragraph_spans_children (docNodes : list SyntaxNode.t)
    (rawText : jsstring) (p : TxtParagraphNode.t) :
  p ∈ TxtDocumentNode.children (convertToTextlintAst docNodes rawText) →
  TxtParagraphNode.children p ≠ []
  ∧ spans_children p
  ∧ ∀ group,
      createParagraphNode group = None ↔
      Forall (λ node, getRustdocType (SyntaxNode.text node) = None) group.
Proof.
  rewrite convertToTextlintAst_children. intros Hp.
  pose proof (paragraphsOf_wf docNodes) as Hwf.
  rewrite Forall_forall in Hwf. destruct (Hwf p Hp) as (_ & Hne & _ & Hs).
  split; [done|]. split; [done|]. apply createParagraphNode_None.
Qed.

(** C10: a group with a documentation token and a token that is none
    gives a paragraph whose raw text is the text of all the tokens of the
    group, joined by line feeds, while its children are the text nodes of
    the documentation tokens only, fewer than the tokens. *)
Theorem paragraph_raw_keeps_all_tokens (group : list SyntaxNode.t) :
  (∃ node, node ∈ group ∧ getRustdocType (SyntaxNode.text node) ≠ None) →
  (∃ node, node ∈ group ∧ getRustdocType (SyntaxNode.text node) = None) →
  ∃ p, createParagraphNode group = Some p
       ∧ TxtParagraphNode.raw p = join [LF] (SyntaxNode.text <$> group)
       ∧ TxtParagraphNode.children p = omap traverse group
       ∧ (length (TxtParagraphNode.children p) < length group)%nat.
Proof.
  intros (doc & Hdoc & Hk) (plain & Hplain & Hn).
  destruct (createParagraphNode group) as [p|] eqn:E.
  - exists p. apply createParagraphNode_Some in E as (_ & Hraw & Hc & _).
    split; [done|]. split; [done|]. split; [done|]. rewrite Hc.
    by apply omap_traverse_length_lt with plain.
  - apply createParagraphNode_None in E. rewrite Forall_forall in E.
    by destruct Hk; apply E.
Qed.

Lemma paragraph_spans_children_witness :
  ∃ p,
    head (TxtDocumentNode.children (convertToTextlintAst twoLines (js "fn")))
    = Some p
    ∧ length (TxtParagraphNode.children p) = 2%nat
    ∧ TxtParagraphNode.children p ≠ []
    ∧ spans_children p
    ∧ ∀ group,
        createParagraphNode group = None ↔
        Forall (λ node, getRustdocType (SyntaxNode.text node) = None) group.
Proof.
  eexists. split; [vm_compute; reflexivity|]. split; [reflexivity|].
  apply (paragraph_spans_children twoLines (js "fn")).
  vm_compute. left.
Defined.

Lemma paragraph_raw_keeps_all_tokens_witness :
  ∃ p, createParagraphNode mixedGroup = Some p
       ∧ TxtParagraphNode.raw p = join [LF] (SyntaxNode.text <$> mixedGroup)
       ∧ TxtParagraphNode.children p = omap traverse mixedGroup
       ∧ (length (TxtParagraphNode.children p) < length mixedGroup)%nat.
Proof.
  apply (paragraph_raw_keeps_all_tokens mixedGroup).
  - exists (lineToken 0 0 "/// doc"). split; [left|discriminate].
  - exists plainToken. split; [right; left|reflexivity].
Defined.

(** The paragraph of [mixedGroup]: its raw text has the plain comment,
    its one child has not. *)
Lemma mixedGroup_paragraph :
  ∃ p, createParagraphNode mixedGroup = Some p
       ∧ TxtParagraphNode.raw p = js "/// doc" ++ [LF] ++ js "// plain"
       ∧ TxtStrNode.raw <$> TxtParagraphNode.children p = [js "doc"]
       ∧ getRustdocType (SyntaxNode.text plainToken) = None.
Proof. eexists. split; [vm_compute; reflexivity|]. by vm_compute. Qed.

(** C1 (as the code has it): without documentation comments, and so on
    no token at all, the document has no children, the range from 0 to
    the length of the text, and a location that starts and ends at line
    1, column 0: its start is the position of the start of the range, and
    its end is the position of the end of the range on the empty text
    only. *)
Theorem convert_without_rustdoc (docNodes : list SyntaxNode.t)
    (rawText : jsstring) :
  Forall (λ node, getRustdocType (SyntaxNode.text node) = None) docNodes →
  let d := convertToTextlintAst docNodes rawText in
  TxtDocumentNode.children d = []
  ∧ TxtDocumentNode.range d = (0, Z.of_nat (length rawText))
  ∧ TxtDocumentNode.loc d = origin
  ∧ Location.start (TxtDocumentNode.loc d)
    = positionAt rawText (TxtDocumentNode.range d).1
  ∧ (Location.end_ (TxtDocumentNode.loc d)
     = positionAt rawText (TxtDocumentNode.range d).2
     ↔ rawText = []).
Proof.
  intros Hnone. cbn zeta. rewrite convertToTextlintAst_unfold.
  rewrite (paragraphsOf_nil docNodes Hnone). cbn.
  split; [done|]. split; [done|]. split; [done|]. split; [done|].
  unfold positionAt. rewrite Nat2Z.id, take_ge by done.
  split; [|by intros ->].
  intros H. injection H as Hrow Hcol.
  destruct (advance_row (Point.mk 0 0) rawText) as [Hlt|[_ Hlen]]; cbn in *;
    [lia|].
  apply length_zero_iff_nil. lia.
Qed.

Lemma convert_without_rustdoc_witness :
  let d := convertToTextlintAst [plainToken] (js "// plain") in
  TxtDocumentNode.children d = []
  ∧ TxtDocumentNode.range d = (0, Z.of_nat (length (js "// plain")))
  ∧ TxtDocumentNode.loc d = origin
  ∧ Location.start (TxtDocumentNode.loc d)
    = positionAt (js "// plain") (TxtDocumentNode.range d).1
  ∧ (Location.end_ (TxtDocumentNode.loc d)
     = positionAt (js "// plain") (TxtDocumentNode.range d).2
     ↔ js "// plain" = []).
Proof.
  apply (convert_without_rustdoc [plainToken] (js "// plain")).
  constructor; [reflexivity|constructor].
Defined.

(** C1 as stated fails: on the text [a] and no token, the range ends at
    offset 1, which is line 1, column 1, and the location ends at line 1,
    column 0. *)
Lemma empty_document_end_counterexample :
  let d := convertToTextlintAst [] (js "a") in
  ¬ (TxtDocumentNode.children d = []
     ∧ TxtDocumentNode.range d = (0, 1)
     ∧ Location.start (TxtDocumentNode.loc d)
       = positionAt (js "a") (TxtDocumentNode.range d).1
     ∧ Location.end_ (TxtDocumentNode.loc d)
       = positionAt (js "a") (TxtDocumentNode.range d).2).
Proof. intros d (_ & _ & _ & H). vm_compute in H. discriminate. Qed.

(** ** Totality *)

(** Without its marker, a line kind falls back to the prefix length 3. *)
Lemma extractContent_fallback (text : jsstring) (docType : RustdocType) :
  isLine docType = true → startsWith text (marker docType) = false →
  extractContent text docType = {| content := drop 3 text; prefixLength := 3 |}.
Proof.
  intros Hl Hs.
  assert (match docType with
          | outer_line => RegExp.exec RegExp.outer_line_prefix text
          | _ => RegExp.exec RegExp.inner_line_prefix text
          end = None) as Hnone.
  { destruct docType; [| |done|done];
      destruct text as [|c1 [|c2 [|c3 rest]]]; cbn in *; try done;
      repeat (destruct (_ =? _)%N; cbn in *; try done). }
  destruct docType; [| |done|done]; cbn [extractContent]; by rewrite Hnone.
Qed.

(** C9: classification, extraction and conversion return on every
    input: a text is of one of the four kinds, whose marker it then
    starts with, or of none; the prefix length is 3 or 4, and 3 with the
    rest of the text as content for a line kind whose marker is absent;
    the document is well formed, and without documentation comments it is
    the empty document on the text. *)
Theorem classify_extract_convert_total (text : jsstring)
    (docType : RustdocType) (docNodes : list SyntaxNode.t)
    (rawText : jsstring) :
  (getRustdocType text = None
   ∨ ∃ k, getRustdocType text = Some k ∧ startsWith text (marker k) = true)
  ∧ (prefixLength (extractContent text docType) = 3%nat
     ∨ prefixLength (extractContent text docType) = 4%nat)
  ∧ (isLine docType = true → startsWith text (marker docType) = false →
     extractContent text docType
     = {| content := drop 3 text; prefixLength := 3 |})
  ∧ wf_document rawText (convertToTextlintAst docNodes rawText)
  ∧ (Forall (λ node, getRustdocType (SyntaxNode.text node) = None) docNodes →
     convertToTextlintAst docNodes rawText
     = {| TxtDocumentNode.type := Document;
          TxtDocumentNode.raw := rawText;
          TxtDocumentNode.range := (0, Z.of_nat (length rawText));
          TxtDocumentNode.loc := origin;
          TxtDocumentNode.children := [] |}).
Proof.
  split; [|split; [|split; [|split]]].
  - destruct (getRustdocType text) as [k|] eqn:E; [right|by left].
    exists k. split; [done|]. apply getRustdocType_marker in E as [rest ->].
    apply startsWith_app.
  - destruct (isLine docType) eqn:Hl.
    + destruct (startsWith text (marker docType)) eqn:Hs.
      * apply startsWith_spec in Hs as [rest ->].
        rewrite prefixLength_marker, Hl.
        by destruct (linePrefixLength_bounds rest) as [_ [-> | ->]]; [left|right].
      * rewrite extractContent_fallback by done. by left.
    + left. by destruct docType.
  - apply extractContent_fallback.
  - apply convertToTextlintAst_wf.
  - intros Hnone. rewrite convertToTextlintAst_unfold.
    by rewrite (paragraphsOf_nil docNodes Hnone).
Qed.

(** * Further properties of the code *)

(** ** Stripping *)

(** X1: on a line comment of its kind the text is the marker, at most
    one whitespace character and the content, and the prefix length
    counts the marker and that character; the character is taken
    whenever there is one, so that the content starts with whitespace
    only when one whitespace character has been taken already. *)
Theorem line_content_roundtrip (text : jsstring) (docType : RustdocType) :
  getRustdocType text = Some docType → isLine docType = true →
  let e := extractContent text docType in
  ∃ sep,
    text = marker docType ++ sep ++ content e
    ∧ prefixLength e = (3 + length sep)%nat
    ∧ ((sep = [] ∧ ∀ c, head (content e) = Some c → isWhiteSpace c = false)
       ∨ ∃ c, sep = [c] ∧ isWhiteSpace c = true).
Proof.
  intros [rest ->]%getRustdocType_marker Hl. cbn zeta.
  rewrite prefixLength_marker, Hl, content_line by done.
  destruct rest as [|c rest]; cbn [linePrefixLength].
  - exists []. split; [done|]. split; [done|]. left. by split.
  - destruct (isWhiteSpace c) eqn:Hc.
    + exists [c]. split; [done|]. split; [done|]. right. by exists c.
    + exists []. split; [done|]. split; [done|]. left. split; [done|].
      cbn. by intros ? [= <-].
Qed.

Lemma line_content_roundtrip_witness :
  let e := extractContent (js "///  two spaces") outer_line in
  ∃ sep,
    js "///  two spaces" = marker outer_line ++ sep ++ content e
    ∧ prefixLength e = (3 + length sep)%nat
    ∧ ((sep = [] ∧ ∀ c, head (content e) = Some c → isWhiteSpace c = false)
       ∨ ∃ c, sep = [c] ∧ isWhiteSpace c = true).
Proof.
  apply (line_content_roundtrip (js "///  two spaces") outer_line); reflexivity.
Defined.

Lemma trimStart_head (s : jsstring) (c : char) :
  head (trimStart s) = Some c → isWhiteSpace c = false.
Proof.
  induction s as [|d s IH]; cbn; [done|].
  destruct (isWhiteSpace d) eqn:Hd; [done|]. by intros [= <-].
Qed.

Lemma suffix_last {A} (l1 l2 : list A) (x : A) :
  l1 `suffix_of` l2 → last l1 = Some x → last l2 = Some x.
Proof.
  intros [k ->] Hl. rewrite last_app, Hl. done.
Qed.

(** What [trim] returns neither starts nor ends with whitespace. *)
Lemma trim_ends (s : jsstring) (c : char) :
  head (trim s) = Some c ∨ last (trim s) = Some c → isWhiteSpace c = false.
Proof.
  unfold trim, trimEnd. rewrite head_reverse, last_reverse. intros [H|H].
  - apply (suffix_last _ _ _ (trimStart_suffix _)) in H.
    rewrite last_reverse in H. by apply trimStart_head in H.
  - by apply trimStart_head in H.
Qed.

Lemma trimStart_id (s : jsstring) :
  (∀ c, head s = Some c → isWhiteSpace c = false) → trimStart s = s.
Proof.
  destruct s as [|d s]; [done|]. intros H. cbn. by rewrite (H d eq_refl).
Qed.

(** X2: the content of a block comment neither starts nor ends with a
    whitespace character, and trimming it again changes nothing. *)
Theorem block_content_trimmed (text : jsstring) (docType : RustdocType) :
  isBlock docType = true →
  let c := content (extractContent text docType) in
  (∀ x, head c = Some x ∨ last c = Some x → isWhiteSpace x = false)
  ∧ trim c = c.
Proof.
  intros Hb. cbn zeta. rewrite content_block by done.
  unfold processBlockContent.
  set (t := trim _). assert (Hends : ∀ x, head t = Some x ∨ last t = Some x →
                                          isWhiteSpace x = false)
    by (intros x; apply trim_ends).
  split; [done|]. unfold trim at 1, trimEnd.
  rewrite (trimStart_id t) by (intros x Hx; apply Hends; by left).
  rewrite trimStart_id; [apply reverse_involutive|].
  intros x Hx. rewrite head_reverse in Hx. apply Hends. by right.
Qed.

Lemma block_content_trimmed_witness :
  let c := content (extractContent blockText outer_block) in
  (∀ x, head c = Some x ∨ last c = Some x → isWhiteSpace x = false)
  ∧ trim c = c.
Proof. apply (block_content_trimmed blockText outer_block). reflexivity. Defined.

Lemma split_elem_of (sep : char) (s line : jsstring) (c : char) :
  line ∈ split sep s → c ∈ line → c ∈ s.
Proof.
  revert line; induction s as [|d s IH]; intros line; cbn.
  - intros ->%list_elem_of_singleton. by intros ?%elem_of_nil.
  - destruct (d =? sep)%N.
    + intros [->|Hin]%elem_of_cons Hc; [by apply elem_of_nil in Hc|].
      right. by apply (IH line).
    + pose proof (split_nonempty sep s) as Hne.
      destruct (split sep s) as [|l ls]; [done|].
      intros [->|Hin]%elem_of_cons Hc.
      * apply elem_of_cons in Hc as [->|Hc]; [left|right].
        apply (IH l); [left|done].
      * right. apply (IH line); [by right|done].
Qed.

Lemma stripLeadingStar_no_star (line : jsstring) :
  STAR ∉ line → stripLeadingStar line = line.
Proof.
  intros Hno. unfold stripLeadingStar.
  destruct (trimStart line) as [|c rest] eqn:E; [done|].
  destruct (N.eqb_spec c STAR) as [->|]; [|done]. destruct Hno.
  destruct (trimStart_suffix line) as [k Hk]. rewrite Hk, E.
  apply elem_of_app. right. left.
Qed.

(** X3: a block body without any [*] is only trimmed: lines that do not
    start with a [*] keep their indentation. *)
Theorem processBlockContent_no_star (body : jsstring) :
  STAR ∉ body → processBlockContent body = trim body.
Proof.
  intros Hno. unfold processBlockContent. f_equal.
  rewrite <- (join_split LF body) at 2. f_equal.
  rewrite <- (list_fmap_id (split LF body)) at 2.
  apply list_fmap_ext. intros i line Hline. rewrite remove_block_line.
  apply stripLeadingStar_no_star. intros Hin. apply Hno.
  apply list_elem_of_lookup_2 in Hline. by apply (split_elem_of LF body line).
Qed.

Lemma processBlockContent_no_star_witness :
  processBlockContent (js " a" ++ [LF] ++ js "   b ")
  = trim (js " a" ++ [LF] ++ js "   b ").
Proof.
  apply (processBlockContent_no_star (js " a" ++ [LF] ++ js "   b ")).
  vm_compute. intros H. repeat (apply elem_of_cons in H as [H|H]; [discriminate|]).
  by apply elem_of_nil in H.
Defined.

(** ** Positions of text nodes *)

Lemma advance_no_LF (p : Point.t) (s : jsstring) :
  LF ∉ s →
  advance p s = Point.mk (Point.row p) (Point.column p + Z.of_nat (length s)).
Proof.
  revert p; induction s as [|c s IH]; intros p Hno.
  - destruct p. cbn. f_equal. lia.
  - rewrite advance_cons. destruct (N.eqb_spec c LF) as [->|Hc].
    + destruct Hno. left.
    + rewrite IH by (intros Hin; apply Hno; by right). cbn. f_equal. lia.
Qed.

Lemma advance_snoc_LF (p : Point.t) (s : jsstring) :
  advance p (s ++ [LF]) = Point.mk (Point.row (advance p s) + 1) 0.
Proof. unfold advance. by rewrite foldl_app. Qed.

(** X4: the text node of a well-formed line comment that has no line
    feed lies on one line, and its columns span exactly its content. *)
Theorem one_line_location (node : SyntaxNode.t) (docType : RustdocType) :
  wf_token node → getRustdocType (SyntaxNode.text node) = Some docType →
  isLine docType = true → LF ∉ SyntaxNode.text node →
  let n := createStrNode node docType in
  Position.line (Location.end_ (TxtStrNode.loc n))
  = Position.line (Location.start (TxtStrNode.loc n))
  ∧ Position.column (Location.end_ (TxtStrNode.loc n))
    - Position.column (Location.start (TxtStrNode.loc n))
    = Z.of_nat (length (TxtStrNode.raw n)).
Proof.
  intros Hwf Hk Hl Hno. destruct (getRustdocType_marker _ _ Hk) as [rest Ht].
  destruct (createStrNode_marker node docType rest Hwf Ht) as [_ Hstart].
  cbn zeta in *. rewrite Hstart. destruct Hwf as [_ Hend].
  unfold createStrNode. cbn. rewrite Hend, advance_no_LF by done. cbn.
  split; [done|]. rewrite Ht, Hl, content_line, length_drop, length_app,
    marker_length by done.
  pose proof (linePrefixLength_bounds rest) as [Hb _]. lia.
Qed.

Lemma one_line_location_witness :
  let n := createStrNode (lineToken 4 90 "//! inner") inner_line in
  Position.line (Location.end_ (TxtStrNode.loc n))
  = Position.line (Location.start (TxtStrNode.loc n))
  ∧ Position.column (Location.end_ (TxtStrNode.loc n))
    - Position.column (Location.start (TxtStrNode.loc n))
    = Z.of_nat (length (TxtStrNode.raw n)).
Proof.
  apply (one_line_location (lineToken 4 90 "//! inner") inner_line).
  - split; reflexivity.
  - reflexivity.
  - reflexivity.
  - vm_compute. intros H.
    repeat (apply elem_of_cons in H as [H|H]; [discriminate|]).
    by apply elem_of_nil in H.
Defined.

(** X5: the text node of a well-formed line comment that ends with its
    only line feed, as the tokenizer gives documentation lines, ends at
    column 0 of the next line, and its content keeps that line feed
    unless the line feed was the one character after the marker. *)
Theorem line_with_newline (node : SyntaxNode.t) (docType : RustdocType)
    (body : jsstring) :
  wf_token node → getRustdocType (SyntaxNode.text node) = Some docType →
  isLine docType = true → SyntaxNode.text node = body ++ [LF] → LF ∉ body →
  let n := createStrNode node docType in
  Location.end_ (TxtStrNode.loc n)
  = {| Position.line := Position.line (Location.start (TxtStrNode.loc n)) + 1;
       Position.column := 0 |}
  ∧ (TxtStrNode.raw n = [] ∧ body = marker docType
     ∨ last (TxtStrNode.raw n) = Some LF).
Proof.
  intros Hwf Hk Hl Hbody Hno.
  destruct (getRustdocType_marker _ _ Hk) as [rest Ht].
  destruct (createStrNode_marker node docType rest Hwf Ht) as [_ Hstart].
  cbn zeta in *. rewrite Hstart. destruct Hwf as [_ Hend].
  unfold createStrNode. cbn. split.
  - rewrite Hend, Hbody, advance_snoc_LF, advance_no_LF by done. done.
  - rewrite Ht, content_line by done. rewrite Ht in Hbody.
    destruct rest as [|c rest].
    + assert (last (marker docType ++ []) = Some LF) as Hlast
        by (by rewrite Hbody, last_snoc).
      by destruct docType.
    + cbn [linePrefixLength]. destruct (isWhiteSpace c) eqn:Hc.
      * change (drop (4 - 3) (c :: rest)) with rest.
        destruct rest as [|d rest']; [left|right].
        -- split; [done|].
           by destruct (app_inj_2 (marker docType) body [c] [LF] eq_refl Hbody)
             as [Hb _].
        -- assert (last (marker docType ++ c :: d :: rest') = Some LF) as Hlast
             by (by rewrite Hbody, last_snoc).
           by rewrite last_app_cons, last_cons_cons in Hlast.
      * right. change (drop (3 - 3) (c :: rest)) with (c :: rest).
        assert (last (marker docType ++ c :: rest) = Some LF) as Hlast
          by (by rewrite Hbody, last_snoc).
        by rewrite last_app_cons in Hlast.
Qed.

Lemma line_with_newline_witness :
  let n := createStrNode (textToken 0 0 (js "/// foo" ++ [LF])) outer_line in
  Location.end_ (TxtStrNode.loc n)
  = {| Position.line := Position.line (Location.start (TxtStrNode.loc n)) + 1;
       Position.column := 0 |}
  ∧ (TxtStrNode.raw n = [] ∧ js "/// foo" = marker outer_line
     ∨ last (TxtStrNode.raw n) = Some LF).
Proof.
  apply (line_with_newline (textToken 0 0 (js "/// foo" ++ [LF])) outer_line
           (js "/// foo")).
  - split; reflexivity.
  - reflexivity.
  - reflexivity.
  - reflexivity.
  - vm_compute. intros H.
    repeat (apply elem_of_cons in H as [H|H]; [discriminate|]).
    by apply elem_of_nil in H.
Defined.

(** ** Grouping *)

(** X6: the tokens make one group exactly when every token starts on
    the row after the start row of the token before it. *)
Theorem one_group_iff (nodes : list SyntaxNode.t) :
  nodes ≠ [] →
  groupConsecutiveNodes nodes = [nodes] ↔ adjacent consecutive nodes.
Proof.
  intros Hne. split.
  - intros Hg. destruct (groupConsecutiveNodes_runs nodes) as (_ & _ & Hrun & _).
    rewrite Hg in Hrun. by rewrite Forall_singleton in Hrun.
  - intros Hadj. symmetry. apply (maximal_runs_unique nodes).
    + repeat split.
      * cbn. by rewrite (right_id_L [] (++)).
      * by apply Forall_singleton.
      * by apply Forall_singleton.
      * apply adjacent_singleton.
    + apply groupConsecutiveNodes_runs.
Qed.

Lemma one_group_iff_witness :
  groupConsecutiveNodes twoLines = [twoLines] ↔ adjacent consecutive twoLines.
Proof. apply (one_group_iff twoLines). discriminate. Defined.

(** X7: every token is a group of its own exactly when no token starts
    on the row after the start row of the token before it. *)
Theorem singleton_groups_iff (nodes : list SyntaxNode.t) :
  groupConsecutiveNodes nodes = (λ node, [node]) <$> nodes
  ↔ adjacent (λ a b, ¬ consecutive a b) nodes.
Proof.
  split.
  - intros Hg. destruct (groupConsecutiveNodes_runs nodes) as (_ & _ & _ & Hbr).
    rewrite Hg in Hbr. intros i a b Ha Hb.
    apply (Hbr i [a] [b]); [by rewrite list_lookup_fmap, Ha
                           |by rewrite list_lookup_fmap, Hb|done|done].
  - intros Hadj. symmetry. apply (maximal_runs_unique nodes);
      [|apply groupConsecutiveNodes_runs].
    repeat split.
    + clear. induction nodes as [|x nodes IH]; [done|]. cbn. by rewrite IH.
    + apply Forall_fmap, Forall_forall. by intros x _.
    + apply Forall_fmap, Forall_forall. intros x _. apply adjacent_singleton.
    + intros i g1 g2 Hg1 Hg2 a b Ha Hb.
      rewrite list_lookup_fmap in Hg1, Hg2.
      destruct (nodes !! i) as [x|] eqn:Hx; [|done].
      destruct (nodes !! S i) as [y|] eqn:Hy; [|done].
      cbn in Hg1, Hg2. injection Hg1 as <-. injection Hg2 as <-.
      injection Ha as <-. injection Hb as <-. by apply (Hadj i).
Qed.

Lemma groupConsecutiveNodes_nil_inv (nodes : list SyntaxNode.t) :
  groupConsecutiveNodes nodes = [] → nodes = [].
Proof.
  intros H. destruct (groupConsecutiveNodes_runs nodes) as (Hcat & _).
  by rewrite H in Hcat.
Qed.

(** X8: where the second sequence does not continue the first, the
    groups of the two together are the groups of the first and then the
    groups of the second. *)
Theorem groups_app_break (nodes1 nodes2 : list SyntaxNode.t) :
  breaks nodes1 nodes2 →
  groupConsecutiveNodes (nodes1 ++ nodes2)
  = groupConsecutiveNodes nodes1 ++ groupConsecutiveNodes nodes2.
Proof.
  intros Hbr. symmetry. apply (maximal_runs_unique (nodes1 ++ nodes2));
    [|apply groupConsecutiveNodes_runs].
  destruct (groupConsecutiveNodes_runs nodes1) as (Hc1 & Hn1 & Hr1 & Hb1).
  destruct (groupConsecutiveNodes_runs nodes2) as (Hc2 & Hn2 & Hr2 & Hb2).
  split; [by rewrite concat_app, Hc1, Hc2|].
  split; [by apply Forall_app|]. split; [by apply Forall_app|].
  set (gs1 := groupConsecutiveNodes nodes1) in *.
  set (gs2 := groupConsecutiveNodes nodes2) in *.
  intros i g1 g2 Hg1 Hg2.
  destruct (decide (S i < length gs1)%nat) as [Hlt|Hge].
  { rewrite lookup_app_l in Hg1, Hg2 by lia. by apply (Hb1 i). }
  destruct (decide (length gs1 ≤ i)%nat) as [Hle|Hgt].
  { rewrite lookup_app_r in Hg1, Hg2 by lia.
    apply (Hb2 (i - length gs1)%nat); [done|].
    by replace (S (i - length gs1)) with (S i - length gs1)%nat by lia. }
  assert (S i = length gs1) as Hi by lia.
  rewrite lookup_app_l in Hg1 by lia. rewrite lookup_app_r in Hg2 by lia.
  replace (S i - length gs1)%nat with 0%nat in Hg2 by lia.
  intros a b Ha Hb. apply Hbr.
  - rewrite <- Hc1. replace i with (pred (length gs1)) in Hg1 by lia.
    rewrite <- last_lookup in Hg1. apply last_Some in Hg1 as [gs1' ->].
    rewrite concat_snoc. apply last_Some in Ha as [g1' ->].
    by rewrite (assoc_L (++)), last_snoc.
  - rewrite <- Hc2. rewrite <- head_lookup in Hg2.
    apply head_Some in Hg2 as [gs2' ->]. apply head_Some in Hb as [g2' ->].
    done.
Qed.

Lemma groups_app_break_witness :
  groupConsecutiveNodes ([lineToken 0 0 "/// a"] ++ [lineToken 3 20 "/// b"])
  = groupConsecutiveNodes [lineToken 0 0 "/// a"]
    ++ groupConsecutiveNodes [lineToken 3 20 "/// b"].
Proof.
  apply (groups_app_break [lineToken 0 0 "/// a"] [lineToken 3 20 "/// b"]).
  intros a b [= <-] [= <-]. unfold consecutive. cbn. lia.
Defined.

(** ** Paragraphs and the document *)

Lemma omap_traverse_rustdoc (g : list SyntaxNode.t) :
  Forall isRustdoc g →
  Forall2 (λ c node, traverse node = Some c) (omap traverse g) g.
Proof.
  induction 1 as [|node g Hnode _ IH]; [constructor|].
  change (omap traverse (node :: g))
    with (match traverse node with
          | Some c => c :: omap traverse g
          | None => omap traverse g
          end).
  destruct (traverse node) as [c|] eqn:E; [by constructor|].
  by apply traverse_None in E.
Qed.

Lemma Forall_concat_1 {A} (P : A → Prop) (ls : list (list A)) :
  Forall P (concat ls) → Forall (Forall P) ls.
Proof.
  induction ls as [|l ls IH]; cbn; [constructor|].
  intros [? ?]%Forall_app. constructor; auto.
Qed.

(** X9: the paragraphs of the document are those of the groups of the
    documentation tokens, one each and in order: the raw text of a
    paragraph is the text of the tokens of its group, joined by line
    feeds, and it has one child for every token of the group. *)
Theorem paragraphs_of_groups (docNodes : list SyntaxNode.t)
    (rawText : jsstring) :
  Forall2
    (λ p g,
       TxtParagraphNode.raw p = join [LF] (SyntaxNode.text <$> g)
       ∧ Forall2 (λ c node, traverse node = Some c)
           (TxtParagraphNode.children p) g)
    (TxtDocumentNode.children (convertToTextlintAst docNodes rawText))
    (groupConsecutiveNodes (filter isRustdoc docNodes)).
Proof.
  rewrite convertToTextlintAst_children. unfold paragraphsOf.
  destruct (groupConsecutiveNodes_runs (filter isRustdoc docNodes))
    as (Hcat & Hne & _).
  assert (Hdoc : Forall (Forall isRustdoc)
                   (groupConsecutiveNodes (filter isRustdoc docNodes))).
  { apply Forall_concat_1. rewrite Hcat. apply Forall_forall.
    by intros node [? _]%list_elem_of_filter. }
  clear Hcat. revert Hne Hdoc.
  generalize (groupConsecutiveNodes (filter isRustdoc docNodes)).
  intros gs Hne Hdoc. induction Hdoc as [|g gs Hg _ IH]; [constructor|].
  apply Forall_cons in Hne as [Hgne Hne].
  pose proof (omap_traverse_rustdoc g Hg) as Hch. cbn.
  destruct (createParagraphNode g) as [p|] eqn:E.
  - apply createParagraphNode_Some in E as (_ & Hraw & Hc & _).
    constructor; [|by apply IH]. by rewrite Hc.
  - apply createParagraphNode_None, omap_traverse_nil in E.
    rewrite E in Hch. by inversion Hch; subst.
Qed.

Lemma head_concat {A} (l : list A) (ls : list (list A)) :
  l ≠ [] → head (concat (l :: ls)) = head l.
Proof. by destruct l. Qed.

Lemma last_concat {A} (l : list A) (ls : list (list A)) :
  l ≠ [] → last (concat (ls ++ [l])) = last l.
Proof.
  intros Hl. rewrite concat_snoc, last_app.
  by destruct (last_is_Some l) as [_ [x ->]].
Qed.

Lemma document_span (docNodes : list SyntaxNode.t)
    (rawText : jsstring) (firstStr lastStr : TxtStrNode.t) :
  head (omap traverse docNodes) = Some firstStr →
  last (omap traverse docNodes) = Some lastStr →
  let d := convertToTextlintAst docNodes rawText in
  TxtDocumentNode.range d
  = ((TxtStrNode.range firstStr).1, (TxtStrNode.range lastStr).2)
  ∧ TxtDocumentNode.loc d
    = {| Location.start := Location.start (TxtStrNode.loc firstStr);
         Location.end_ := Location.end_ (TxtStrNode.loc lastStr) |}.
Proof.
  intros Hf Hl. cbn zeta.
  pose proof (strNodes_convertToTextlintAst docNodes rawText) as Hs.
  unfold strNodes in Hs. rewrite convertToTextlintAst_children in Hs.
  pose proof (paragraphsOf_wf docNodes) as Hwf.
  rewrite convertToTextlintAst_unfold. rewrite <- Hs in Hf, Hl.
  destruct (paragraphsOf docNodes) as [|p ps] eqn:E; [done|].
  destruct (last_is_Some (p :: ps)) as [_ [q Hq]]; [done|].
  rewrite Hq. cbn [head].
  assert (Hp : wf_paragraph p) by (by apply Forall_cons in Hwf as [? _]).
  assert (Hqw : wf_paragraph q).
  { rewrite Forall_forall in Hwf. apply Hwf. by apply last_Some_elem_of. }
  destruct Hp as (_ & Hpne & _ & pf & pl & Hpf & _ & Hpr & Hploc).
  destruct Hqw as (_ & Hqne & _ & qf & ql & _ & Hql & Hqr & Hqloc).
  rewrite fmap_cons, head_concat, Hpf in Hf by done. injection Hf as ->.
  apply last_Some in Hq as [ps' Hps]. rewrite Hps in Hl.
  rewrite fmap_app, fmap_cons, fmap_nil, last_concat, Hql in Hl by done.
  injection Hl as ->. by rewrite Hpr, Hqr, Hploc, Hqloc.
Qed.

(** X10: when there is a documentation token, the document spans the
    text nodes: its range goes from the start of the first text node to
    the end of the last, and so does its location. *)
Theorem document_spans_text_nodes (docNodes : list SyntaxNode.t)
    (rawText : jsstring) (firstStr lastStr : TxtStrNode.t) :
  head (omap traverse docNodes) = Some firstStr →
  last (omap traverse docNodes) = Some lastStr →
  let d := convertToTextlintAst docNodes rawText in
  TxtDocumentNode.range d
  = ((TxtStrNode.range firstStr).1, (TxtStrNode.range lastStr).2)
  ∧ TxtDocumentNode.loc d
    = {| Location.start := Location.start (TxtStrNode.loc firstStr);
         Location.end_ := Location.end_ (TxtStrNode.loc lastStr) |}.
Proof. apply document_span. Qed.

Lemma document_spans_text_nodes_witness :
  let d := convertToTextlintAst twoLines (js "fn") in
  TxtDocumentNode.range d = (4, 45)
  ∧ TxtDocumentNode.loc d
    = {| Location.start := {| Position.line := 1; Position.column := 4 |};
         Location.end_ := {| Position.line := 2; Position.column := 14 |} |}.
Proof.
  apply (document_spans_text_nodes twoLines (js "fn")
           (createStrNode (lineToken 0 0 "/// This is a rustdoc comment.")
              outer_line)
           (createStrNode (lineToken 1 31 "/// next line.") outer_line));
    reflexivity.
Defined.

(** X11: on a single documentation token the document has one paragraph
    with one child, the text node that [traverse] gives for the token,
    and the paragraph and the document have its range and location; the
    raw text of the paragraph is the text of the token. *)
Theorem convert_single_token (node : SyntaxNode.t) (rawText : jsstring)
    (c : TxtStrNode.t) :
  traverse node = Some c →
  convertToTextlintAst [node] rawText
  = {| TxtDocumentNode.type := Document;
       TxtDocumentNode.raw := rawText;
       TxtDocumentNode.range := TxtStrNode.range c;
       TxtDocumentNode.loc := TxtStrNode.loc c;
       TxtDocumentNode.children :=
         [{| TxtParagraphNode.type := Paragraph;
             TxtParagraphNode.raw := SyntaxNode.text node;
             TxtParagraphNode.range := TxtStrNode.range c;
             TxtParagraphNode.loc := TxtStrNode.loc c;
             TxtParagraphNode.children := [c] |}] |}.
Proof.
  intros Hc. assert (Hdoc : isRustdoc node).
  { unfold isRustdoc. intros Hn. apply traverse_None in Hn. congruence. }
  apply traverse_Some in Hc as (docType & Hk & ->).
  rewrite convertToTextlintAst_unfold. unfold paragraphsOf.
  rewrite filter_cons_True, filter_nil by done.
  change (groupConsecutiveNodes [node]) with [[node]].
  assert (createParagraphNode [node]
          = Some {| TxtParagraphNode.type := Paragraph;
                    TxtParagraphNode.raw := SyntaxNode.text node;
                    TxtParagraphNode.range :=
                      TxtStrNode.range (createStrNode node docType);
                    TxtParagraphNode.loc :=
                      TxtStrNode.loc (createStrNode node docType);
                    TxtParagraphNode.children := [createStrNode node docType] |})
    as Hp.
  { unfold createParagraphNode. cbn [length foldl]. unfold pushStrNode.
    rewrite Hk. cbn. done. }
  cbn [omap list_omap]. rewrite Hp. done.
Qed.

Lemma convert_single_token_witness :
  convertToTextlintAst [lineToken 0 0 "/// a"] (js "/// a")
  = {| TxtDocumentNode.type := Document;
       TxtDocumentNode.raw := js "/// a";
       TxtDocumentNode.range := (4, 5);
       TxtDocumentNode.loc :=
         {| Location.start := {| Position.line := 1; Position.column := 4 |};
            Location.end_ := {| Position.line := 1; Position.column := 5 |} |};
       TxtDocumentNode.children :=
         [{| TxtParagraphNode.type := Paragraph;
             TxtParagraphNode.raw := js "/// a";
             TxtParagraphNode.range := (4, 5);
             TxtParagraphNode.loc :=
               {| Location.start := {| Position.line := 1; Position.column := 4 |};
                  Location.end_ := {| Position.line := 1; Position.column := 5 |} |};
             TxtParagraphNode.children :=
               [createStrNode (lineToken 0 0 "/// a") outer_line] |}] |}.
Proof.
  apply (convert_single_token (lineToken 0 0 "/// a") (js "/// a")
           (createStrNode (lineToken 0 0 "/// a") outer_line)).
  reflexivity.
Defined.

(** ** Ranges in text order *)

Lemma createStrNode_range (node : SyntaxNode.t) (docType : RustdocType) :
  wf_token node → getRustdocType (SyntaxNode.text node) = Some docType →
  let n := createStrNode node docType in
  SyntaxNode.startIndex node <= (TxtStrNode.range n).1
  ∧ (TxtStrNode.range n).1 <= (TxtStrNode.range n).2
  ∧ (TxtStrNode.range n).2 = SyntaxNode.endIndex node.
Proof.
  intros Hwf Hk. destruct (getRustdocType_marker _ _ Hk) as [rest Ht].
  destruct (createStrNode_marker node docType rest Hwf Ht) as [Hspan _].
  cbn zeta in *. pose proof (linePrefixLength_bounds rest) as [Hb _].
  assert (Hp : (3 ≤ (if isLine docType then linePrefixLength rest else 3%nat)
                ≤ 3 + length rest)%nat) by (destruct (isLine docType); lia).
  unfold createStrNode in *. cbn in *. lia.
Qed.

(** The text nodes of well-formed tokens in text order: each has its
    start before its end, and ends before the next ones start. *)
Lemma omap_traverse_ordered (docNodes : list SyntaxNode.t) :
  Forall wf_token docNodes → inTextOrder docNodes →
  Forall (λ c, (TxtStrNode.range c).1 <= (TxtStrNode.range c).2)
    (omap traverse docNodes)
  ∧ StronglySorted (λ a b, (TxtStrNode.range a).2 <= (TxtStrNode.range b).1)
      (omap traverse docNodes).
Proof.
  intros Hwf Hord. induction Hwf as [|node docNodes Hnode Hwf IH].
  - split; constructor.
  - apply StronglySorted_cons in Hord as [Hafter Hord].
    destruct (IH Hord) as [IH1 IH2].
    change (omap traverse (node :: docNodes))
      with (match traverse node with
            | Some c => c :: omap traverse docNodes
            | None => omap traverse docNodes
            end).
    destruct (traverse node) as [c|] eqn:E; [|done].
    apply traverse_Some in E as (docType & Hk & ->).
    destruct (createStrNode_range node docType Hnode Hk) as (_ & H12 & H2).
    split; [by constructor|]. constructor; [done|].
    apply Forall_forall. intros c' (node' & Hin & Hc')%list_elem_of_omap.
    apply traverse_Some in Hc' as (docType' & Hk' & ->).
    rewrite Forall_forall in Hafter, Hwf.
    destruct (createStrNode_range node' docType' (Hwf _ Hin) Hk') as (H1' & _).
    cbn zeta in *. specialize (Hafter _ Hin). cbn in Hafter. lia.
Qed.

(** From the first to the last of nodes in text order. *)
Lemma span_ordered (cs : list TxtStrNode.t) (f l : TxtStrNode.t) :
  Forall (λ c, (TxtStrNode.range c).1 <= (TxtStrNode.range c).2) cs →
  StronglySorted (λ a b, (TxtStrNode.range a).2 <= (TxtStrNode.range b).1) cs →
  head cs = Some f → last cs = Some l →
  (TxtStrNode.range f).1 <= (TxtStrNode.range l).2.
Proof.
  intros Hc Hs Hf Hl. apply head_Some in Hf as [cs' ->].
  apply Forall_cons in Hc as [Hfo Hc]. apply StronglySorted_cons in Hs as [Hs _].
  destruct cs' as [|x cs'].
  - injection Hl as <-. done.
  - rewrite last_cons_cons in Hl. apply last_Some_elem_of in Hl.
    rewrite Forall_forall in Hc, Hs. specialize (Hc _ Hl). specialize (Hs _ Hl).
    cbn in *. lia.
Qed.

(** X12: on well-formed tokens that lie one after the other in the
    text, the text nodes of the document are in text order, none
    reaching into the next, and every paragraph and the document itself
    have a range whose start is not after its end. *)
Theorem ranges_in_text_order (docNodes : list SyntaxNode.t)
    (rawText : jsstring) :
  Forall wf_token docNodes → inTextOrder docNodes →
  let d := convertToTextlintAst docNodes rawText in
  StronglySorted (λ a b, (TxtStrNode.range a).2 <= (TxtStrNode.range b).1)
    (strNodes d)
  ∧ Forall (λ c, (TxtStrNode.range c).1 <= (TxtStrNode.range c).2) (strNodes d)
  ∧ Forall (λ p, (TxtParagraphNode.range p).1 <= (TxtParagraphNode.range p).2)
      (TxtDocumentNode.children d)
  ∧ (TxtDocumentNode.range d).1 <= (TxtDocumentNode.range d).2.
Proof.
  intros Hwf Hord. cbn zeta.
  destruct (omap_traverse_ordered docNodes Hwf Hord) as [Hc Hs].
  pose proof (strNodes_convertToTextlintAst docNodes rawText) as Hstr.
  rewrite Hstr. split; [done|]. split; [done|]. split.
  - rewrite <- Hstr in Hc, Hs. unfold strNodes in Hc, Hs.
    pose proof (paragraphsOf_wf docNodes) as Hp.
    rewrite convertToTextlintAst_children in *.
    apply Forall_forall. intros p Hin.
    rewrite Forall_forall in Hp.
    destruct (Hp p Hin) as (_ & _ & _ & f & l & Hf & Hl & Hr & _).
    apply list_elem_of_split in Hin as (ps1 & ps2 & Hps). rewrite Hps in Hc, Hs.
    rewrite fmap_app, fmap_cons, concat_app in Hc, Hs. cbn [concat] in Hc, Hs.
    apply Forall_app in Hc as [_ [Hc _]%Forall_app].
    apply StronglySorted_app_1_r, StronglySorted_app_1_l in Hs.
    rewrite Hr. cbn. by apply (span_ordered (TxtParagraphNode.children p)).
  - destruct (omap traverse docNodes) as [|c cs] eqn:E.
    + apply omap_traverse_nil in E.
      rewrite convertToTextlintAst_unfold, (paragraphsOf_nil docNodes E). cbn. lia.
    + destruct (last_is_Some (c :: cs)) as [_ [l Hl]]; [done|].
      rewrite <- E in Hl.
      destruct (document_span docNodes rawText c l) as [Hr _];
        [by rewrite E|done|].
      rewrite Hr. cbn. apply (span_ordered (c :: cs)); try done. by rewrite <- E.
Qed.

Lemma ranges_in_text_order_witness :
  let d := convertToTextlintAst twoLines (js "fn") in
  StronglySorted (λ a b, (TxtStrNode.range a).2 <= (TxtStrNode.range b).1)
    (strNodes d)
  ∧ Forall (λ c, (TxtStrNode.range c).1 <= (TxtStrNode.range c).2) (strNodes d)
  ∧ Forall (λ p, (TxtParagraphNode.range p).1 <= (TxtParagraphNode.range p).2)
      (TxtDocumentNode.children d)
  ∧ (TxtDocumentNode.range d).1 <= (TxtDocumentNode.range d).2.
Proof.
  apply (ranges_in_text_order twoLines (js "fn")).
  - repeat constructor.
  - repeat constructor; cbn; lia.
Defined.

(** ** The processor *)

Lemma filterSeen_sublist (seenNodes : gset Z) (nodes : list SyntaxNode.t) :
  filterSeen seenNodes nodes `sublist_of` nodes.
Proof.
  revert seenNodes; induction nodes as [|node nodes IH]; intros seenNodes; cbn.
  - done.
  - destruct (decide _); [by apply sublist_cons|by apply sublist_skip].
Qed.

Lemma filterSeen_not_seen (seenNodes : gset Z) (nodes : list SyntaxNode.t)
    (node : SyntaxNode.t) :
  node ∈ filterSeen seenNodes nodes → SyntaxNode.startIndex node ∉ seenNodes.
Proof.
  revert seenNodes; induction nodes as [|x nodes IH]; intros seenNodes; cbn.
  - by intros ?%elem_of_nil.
  - destruct (decide _) as [Hin|Hnot]; [apply IH|].
    intros [->|Hin]%elem_of_cons; [done|]. apply IH in Hin.
    intros Hs. apply Hin, elem_of_union. by right.
Qed.

Lemma filterSeen_NoDup (seenNodes : gset Z) (nodes : list SyntaxNode.t) :
  NoDup (SyntaxNode.startIndex <$> filterSeen seenNodes nodes).
Proof.
  revert seenNodes; induction nodes as [|x nodes IH]; intros seenNodes; cbn.
  - constructor.
  - destruct (decide _) as [Hin|Hnot]; [apply IH|].
    cbn. constructor; [|apply IH].
    intros (y & Hy & Hin)%list_elem_of_fmap.
    apply filterSeen_not_seen in Hin. apply Hin, elem_of_union. left.
    by apply elem_of_singleton.
Qed.

Lemma filterSeen_covers (seenNodes : gset Z) (nodes : list SyntaxNode.t)
    (node : SyntaxNode.t) :
  node ∈ nodes →
  SyntaxNode.startIndex node ∈ seenNodes
  ∨ ∃ kept, kept ∈ filterSeen seenNodes nodes
            ∧ SyntaxNode.startIndex kept = SyntaxNode.startIndex node.
Proof.
  revert seenNodes; induction nodes as [|x nodes IH]; intros seenNodes; cbn.
  - by intros ?%elem_of_nil.
  - intros [->|Hin]%elem_of_cons.
    + destruct (decide _) as [Hs|Hs]; [by left|right].
      exists x. split; [left|done].
    + destruct (decide _) as [Hs|Hs].
      * destruct (IH seenNodes Hin) as [?|(kept & ? & ?)]; [by left|right].
        by exists kept.
      * destruct (IH ({[SyntaxNode.startIndex x]} ∪ seenNodes) Hin)
          as [Hk|(kept & ? & ?)].
        -- apply elem_of_union in Hk as [Hk|Hk]; [right|by left].
           apply elem_of_singleton in Hk. exists x. split; [left|done].
        -- right. exists kept. split; [by right|done].
Qed.

(** Nodes with start offsets that differ from each other and from the
    ones seen are all kept. *)
Lemma filterSeen_id (seenNodes : gset Z) (nodes : list SyntaxNode.t) :
  NoDup (SyntaxNode.startIndex <$> nodes) →
  (∀ node, node ∈ nodes → SyntaxNode.startIndex node ∉ seenNodes) →
  filterSeen seenNodes nodes = nodes.
Proof.
  revert seenNodes; induction nodes as [|x nodes IH]; intros seenNodes; cbn.
  - done.
  - intros [Hx Hnd]%NoDup_cons Hseen.
    rewrite decide_False by (apply Hseen; left). f_equal. apply IH; [done|].
    intros node Hin. specialize (Hseen node ltac:(by right)).
    assert (SyntaxNode.startIndex node ≠ SyntaxNode.startIndex x).
    { intros Heq. apply Hx. rewrite <- Heq. apply list_elem_of_fmap. eauto. }
    intros [Hk%elem_of_singleton|Hk]%elem_of_union; done.
Qed.

(** Nodes whose start offsets have all been seen are all dropped. *)
Lemma filterSeen_all_seen (seenNodes : gset Z) (nodes : list SyntaxNode.t) :
  (∀ node, node ∈ nodes → SyntaxNode.startIndex node ∈ seenNodes) →
  filterSeen seenNodes nodes = [].
Proof.
  induction nodes as [|x nodes IH]; cbn; [done|]. intros Hseen.
  rewrite decide_True by (apply Hseen; left). apply IH.
  intros node Hin. apply Hseen. by right.
Qed.

Lemma filterSeen_app (seenNodes : gset Z) (nodes1 nodes2 : list SyntaxNode.t) :
  filterSeen seenNodes (nodes1 ++ nodes2)
  = filterSeen seenNodes nodes1
    ++ filterSeen (seenNodes ∪ list_to_set (SyntaxNode.startIndex <$> nodes1))
         nodes2.
Proof.
  revert seenNodes; induction nodes1 as [|x nodes1 IH]; intros seenNodes; cbn.
  - by rewrite (right_id_L ∅ (∪)).
  - destruct (decide _) as [Hs|Hs]; rewrite IH; cbn.
    + replace (seenNodes ∪ ({[SyntaxNode.startIndex x]}
                 ∪ list_to_set (SyntaxNode.startIndex <$> nodes1)))
        with (seenNodes ∪ list_to_set (SyntaxNode.startIndex <$> nodes1));
        [done|].
      apply set_eq. intros k. rewrite !elem_of_union, elem_of_singleton.
      split; [tauto|]. intros [?|[->|?]]; tauto.
    + replace (seenNodes ∪ ({[SyntaxNode.startIndex x]}
                 ∪ list_to_set (SyntaxNode.startIndex <$> nodes1)))
        with ({[SyntaxNode.startIndex x]} ∪ seenNodes
                ∪ list_to_set (SyntaxNode.startIndex <$> nodes1));
        [done|].
      apply set_eq. intros k. rewrite !elem_of_union, elem_of_singleton. tauto.
Qed.

Lemma insertSorted_Permutation {A} (compare : A → A → Z) (x : A) (l : list A) :
  insertSorted compare x l ≡ₚ x :: l.
Proof.
  induction l as [|y l IH]; cbn; [done|].
  destruct (compare x y <=? 0); [done|]. rewrite IH. apply Permutation_swap.
Qed.

Lemma sort_Permutation {A} (compare : A → A → Z) (l : list A) :
  sort compare l ≡ₚ l.
Proof.
  induction l as [|x l IH]; cbn; [done|].
  rewrite insertSorted_Permutation. by f_equiv.
Qed.

Lemma sort_byStartIndex_sorted (nodes : list SyntaxNode.t) :
  StronglySorted (λ a b, SyntaxNode.startIndex a <= SyntaxNode.startIndex b)
    (sort byStartIndex nodes).
Proof.
  induction nodes as [|x nodes IH]; cbn; [constructor|].
  fold (sort byStartIndex nodes). revert IH.
  generalize (sort byStartIndex nodes). clear nodes.
  intros l Hl. induction Hl as [|y l Hl IH Hy]; cbn.
  - repeat constructor.
  - unfold byStartIndex at 1. destruct (Z.leb_spec
      (SyntaxNode.startIndex x - SyntaxNode.startIndex y) 0) as [Hle|Hgt].
    + constructor; [by constructor|]. constructor; [lia|].
      eapply Forall_impl; [exact Hy|]. cbn. intros; lia.
    + constructor; [done|].
      rewrite (insertSorted_Permutation byStartIndex x l).
      constructor; [lia|done].
Qed.

(** Sorting leaves a sorted array as it is. *)
Lemma sort_byStartIndex_id (nodes : list SyntaxNode.t) :
  StronglySorted (λ a b, SyntaxNode.startIndex a <= SyntaxNode.startIndex b)
    nodes →
  sort byStartIndex nodes = nodes.
Proof.
  induction 1 as [|x nodes _ IH Hx]; [done|]. cbn.
  fold (sort byStartIndex nodes). rewrite IH.
  destruct nodes as [|y nodes]; [done|]. cbn.
  apply Forall_cons in Hx as [Hxy _]. unfold byStartIndex.
  by destruct (Z.leb_spec (SyntaxNode.startIndex x - SyntaxNode.startIndex y) 0);
    [|lia].
Qed.

Lemma sorted_NoDup_increasing (nodes : list SyntaxNode.t) :
  StronglySorted (λ a b, SyntaxNode.startIndex a <= SyntaxNode.startIndex b)
    nodes →
  NoDup (SyntaxNode.startIndex <$> nodes) → increasing nodes.
Proof.
  induction 1 as [|x nodes _ IH Hx]; [constructor|].
  intros [Hnx Hnd]%NoDup_cons. constructor; [by apply IH|].
  apply Forall_forall. intros y Hy. rewrite Forall_forall in Hx.
  specialize (Hx y Hy). cbn in Hx.
  assert (SyntaxNode.startIndex x ≠ SyntaxNode.startIndex y); [|lia].
  intros Heq. apply Hnx. rewrite Heq. apply list_elem_of_fmap. eauto.
Qed.

Lemma increasing_sorted_NoDup (nodes : list SyntaxNode.t) :
  increasing nodes →
  StronglySorted (λ a b, SyntaxNode.startIndex a <= SyntaxNode.startIndex b)
    nodes
  ∧ NoDup (SyntaxNode.startIndex <$> nodes).
Proof.
  induction 1 as [|x nodes _ [IH1 IH2] Hx]; [split; constructor|].
  rewrite Forall_forall in Hx. split.
  - constructor; [done|]. apply Forall_forall. intros y Hy.
    specialize (Hx y Hy). cbn in Hx. lia.
  - cbn. constructor; [|done]. intros (y & Hy & Hin)%list_elem_of_fmap.
    specialize (Hx y Hin). cbn in Hx. lia.
Qed.

Lemma filterSeen_empty_covers (nodes : list SyntaxNode.t) (node : SyntaxNode.t) :
  node ∈ nodes →
  ∃ kept, kept ∈ filterSeen ∅ nodes
          ∧ SyntaxNode.startIndex kept = SyntaxNode.startIndex node.
Proof.
  intros Hin.
  by destruct (filterSeen_covers ∅ nodes node Hin) as [?%elem_of_empty|?].
Qed.

Lemma filterSeen_empty_id (nodes : list SyntaxNode.t) :
  NoDup (SyntaxNode.startIndex <$> nodes) → filterSeen ∅ nodes = nodes.
Proof.
  intros Hnd. apply filterSeen_id; [done|]. intros node _. apply not_elem_of_empty.
Qed.

(** X13: the filter of [preProcess] keeps nodes of the captures in
    their order, no two with the same start offset and one for every
    start offset of the captures; nodes whose start offsets all differ
    are all kept. *)
Theorem filterSeen_dedupes (nodes : list SyntaxNode.t) :
  filterSeen ∅ nodes `sublist_of` nodes
  ∧ NoDup (SyntaxNode.startIndex <$> filterSeen ∅ nodes)
  ∧ (∀ node, node ∈ nodes →
       ∃ kept, kept ∈ filterSeen ∅ nodes
               ∧ SyntaxNode.startIndex kept = SyntaxNode.startIndex node)
  ∧ (NoDup (SyntaxNode.startIndex <$> nodes) → filterSeen ∅ nodes = nodes).
Proof.
  split; [apply filterSeen_sublist|]. split; [apply filterSeen_NoDup|].
  split; [apply filterSeen_empty_covers|apply filterSeen_empty_id].
Qed.

Lemma commentNodes_Permutation (captures : list QueryCapture.t) :
  commentNodes captures ≡ₚ filterSeen ∅ (QueryCapture.node <$> captures).
Proof. apply sort_Permutation. Qed.

Lemma commentNodes_strict (captures : list QueryCapture.t) :
  increasing (commentNodes captures).
Proof.
  apply sorted_NoDup_increasing; [apply sort_byStartIndex_sorted|].
  rewrite commentNodes_Permutation. apply filterSeen_NoDup.
Qed.

(** X14: the nodes that [preProcess] hands to the conversion have
    strictly growing start offsets; they are the kept nodes in another
    order, and every capture has its start offset among them. *)
Theorem commentNodes_increasing (captures : list QueryCapture.t) :
  increasing (commentNodes captures)
  ∧ commentNodes captures ≡ₚ filterSeen ∅ (QueryCapture.node <$> captures)
  ∧ ∀ capture, capture ∈ captures →
      ∃ kept, kept ∈ commentNodes captures
              ∧ SyntaxNode.startIndex kept
                = SyntaxNode.startIndex (QueryCapture.node capture).
Proof.
  split; [apply commentNodes_strict|]. split; [apply commentNodes_Permutation|].
  intros capture Hin.
  destruct (filterSeen_empty_covers (QueryCapture.node <$> captures)
              (QueryCapture.node capture)) as (kept & Hk & Heq).
  { apply list_elem_of_fmap. eauto. }
  exists kept. by rewrite commentNodes_Permutation.
Qed.

(** X15: captures that come with strictly growing start offsets are
    converted as they are: neither the filter nor the sort changes
    them. *)
Theorem commentNodes_of_increasing (captures : list QueryCapture.t)
    (text : jsstring) :
  increasing (QueryCapture.node <$> captures) →
  commentNodes captures = QueryCapture.node <$> captures
  ∧ preProcess captures text
    = convertToTextlintAst (QueryCapture.node <$> captures) text.
Proof.
  intros [Hs Hnd]%increasing_sorted_NoDup.
  assert (commentNodes captures = QueryCapture.node <$> captures) as Heq.
  { unfold commentNodes.
    rewrite (filterSeen_empty_id _ Hnd). by apply sort_byStartIndex_id. }
  split; [done|]. unfold preProcess. by rewrite Heq.
Qed.

Lemma commentNodes_of_increasing_witness :
  commentNodes [QueryCapture.mk (js "comment") (tokenAt 0 "/// a");
                QueryCapture.mk (js "comment") (tokenAt 9 "// b")]
  = QueryCapture.node <$>
      [QueryCapture.mk (js "comment") (tokenAt 0 "/// a");
       QueryCapture.mk (js "comment") (tokenAt 9 "// b")]
  ∧ preProcess [QueryCapture.mk (js "comment") (tokenAt 0 "/// a");
                QueryCapture.mk (js "comment") (tokenAt 9 "// b")] (js "fn")
    = convertToTextlintAst
        (QueryCapture.node <$>
           [QueryCapture.mk (js "comment") (tokenAt 0 "/// a");
            QueryCapture.mk (js "comment") (tokenAt 9 "// b")]) (js "fn").
Proof.
  apply (commentNodes_of_increasing
           [QueryCapture.mk (js "comment") (tokenAt 0 "/// a");
            QueryCapture.mk (js "comment") (tokenAt 9 "// b")] (js "fn")).
  repeat constructor.
Defined.

Lemma increasing_unique (nodes nodes' : list SyntaxNode.t) :
  increasing nodes → increasing nodes' → nodes ≡ₚ nodes' → nodes = nodes'.
Proof.
  apply StronglySorted_unique. intros a b H1 H2. lia.
Qed.

(** X16: when the start offsets of the captures all differ, the order in
    which the query returns them does not matter. *)
Theorem commentNodes_order_irrelevant (captures captures' : list QueryCapture.t)
    (text : jsstring) :
  NoDup (SyntaxNode.startIndex <$> (QueryCapture.node <$> captures)) →
  captures ≡ₚ captures' →
  commentNodes captures = commentNodes captures'
  ∧ preProcess captures text = preProcess captures' text.
Proof.
  intros Hnd Hperm.
  assert (commentNodes captures = commentNodes captures') as Heq.
  { apply increasing_unique; try apply commentNodes_strict.
    rewrite !commentNodes_Permutation.
    rewrite (filterSeen_empty_id _ Hnd), filterSeen_empty_id
      by (by rewrite <- Hperm).
    by rewrite Hperm. }
  split; [done|]. unfold preProcess. by rewrite Heq.
Qed.

Lemma commentNodes_order_irrelevant_witness :
  commentNodes [QueryCapture.mk (js "comment") (tokenAt 9 "/// b");
                QueryCapture.mk (js "comment") (tokenAt 0 "/// a")]
  = commentNodes [QueryCapture.mk (js "comment") (tokenAt 0 "/// a");
                  QueryCapture.mk (js "comment") (tokenAt 9 "/// b")]
  ∧ preProcess [QueryCapture.mk (js "comment") (tokenAt 9 "/// b");
                QueryCapture.mk (js "comment") (tokenAt 0 "/// a")] (js "fn")
    = preProcess [QueryCapture.mk (js "comment") (tokenAt 0 "/// a");
                  QueryCapture.mk (js "comment") (tokenAt 9 "/// b")] (js "fn").
Proof.
  apply (commentNodes_order_irrelevant
           [QueryCapture.mk (js "comment") (tokenAt 9 "/// b");
            QueryCapture.mk (js "comment") (tokenAt 0 "/// a")]
           [QueryCapture.mk (js "comment") (tokenAt 0 "/// a");
            QueryCapture.mk (js "comment") (tokenAt 9 "/// b")] (js "fn")).
  - cbn. apply NoDup_cons. split; [|apply NoDup_singleton].
    intros H%list_elem_of_singleton. discriminate.
  - apply Permutation_swap.
Defined.

(** X17: captures that come after the others and start where one of
    them starts leave the result as it is. *)
Theorem commentNodes_later_duplicates (captures dups : list QueryCapture.t)
    (text : jsstring) :
  (∀ dup, dup ∈ dups →
     ∃ capture, capture ∈ captures
                ∧ SyntaxNode.startIndex (QueryCapture.node dup)
                  = SyntaxNode.startIndex (QueryCapture.node capture)) →
  commentNodes (captures ++ dups) = commentNodes captures
  ∧ preProcess (captures ++ dups) text = preProcess captures text.
Proof.
  intros Hdup.
  assert (commentNodes (captures ++ dups) = commentNodes captures) as Heq.
  { unfold commentNodes. rewrite fmap_app, filterSeen_app.
    rewrite (filterSeen_all_seen _ (QueryCapture.node <$> dups)).
    - by rewrite (right_id_L [] (++)).
    - intros node (dup & -> & Hin)%list_elem_of_fmap.
      destruct (Hdup dup Hin) as (capture & Hc & ->).
      apply elem_of_union. right. apply elem_of_list_to_set.
      apply list_elem_of_fmap. exists (QueryCapture.node capture).
      split; [done|]. apply list_elem_of_fmap. eauto. }
  split; [done|]. unfold preProcess. by rewrite Heq.
Qed.

Lemma commentNodes_later_duplicates_witness :
  commentNodes ([QueryCapture.mk (js "comment") (tokenAt 0 "/// a")]
                ++ [QueryCapture.mk (js "doc") (tokenAt 0 "/// a")])
  = commentNodes [QueryCapture.mk (js "comment") (tokenAt 0 "/// a")]
  ∧ preProcess ([QueryCapture.mk (js "comment") (tokenAt 0 "/// a")]
                ++ [QueryCapture.mk (js "doc") (tokenAt 0 "/// a")]) (js "fn")
    = preProcess [QueryCapture.mk (js "comment") (tokenAt 0 "/// a")] (js "fn").
Proof.
  apply (commentNodes_later_duplicates
           [QueryCapture.mk (js "comment") (tokenAt 0 "/// a")]
           [QueryCapture.mk (js "doc") (tokenAt 0 "/// a")] (js "fn")).
  intros dup ->%list_elem_of_singleton.
  exists (QueryCapture.mk (js "comment") (tokenAt 0 "/// a")).
  split; [left|reflexivity].
Defined.
